(** * intlog: integer logarithms and powers through a bit-length lookup table

    A shallow embedding of [src/intlog.py].  Python integers are [Z];
    [int.bit_length] is [bit_length]; the module-level dictionary [_lut]
    (base -> list of checkpoints) is a [gmap Z table]; functions that read or
    extend [_lut] run in a small state-and-exception monad [M]. *)

From Stdlib Require Import ZArith QArith Qround Lia.
From stdpp Require Import base gmap list strings.

Open Scope Z_scope.

(** ** Python values used by the module *)

(** Exceptions raised by the module (or by the interpreter on its behalf). *)
Inductive exn := ValueError | TypeError | KeyError | IndexError.

(** A base as passed by a caller: a Python [int], a [float] (represented
    by its exact rational value), or an object of any other type ([str],
    [None], a [list], ...), which is equal to no [int] and may be
    unhashable. *)
Inductive PyBase := BInt (z : Z) | BFloat (q : Q) | BObj (hashable : bool).

(** A value returned by the [*_pow] functions: [int], [float], or the
    result of [power * base] / [power // base] for a base of another type. *)
Inductive PyNum := NInt (z : Z) | NFloat (q : Q) | NObj.

(** [int.bit_length()]: number of bits of [abs x], and 0 for 0. *)
Definition bit_length (x : Z) : Z :=
  if x =? 0 then 0 else Z.log2 (Z.abs x) + 1.

(** Python [bool] used as an [int] ([True] is 1). *)
Definition py_bool (b : bool) : Z := if b then 1 else 0.

(** Python's [base ** exponent] for an [int] base: an [int] for a
    non-negative exponent, the [float] [1 / base ** -exponent] otherwise. *)
Definition py_pow (b e : Z) : Q :=
  if 0 <=? e then inject_Z (b ^ e) else / inject_Z (b ^ (- e)).

(** Dictionary key of a base: [_lut] only holds [int] keys, and a [float]
    is equal (and hashes equal) to an [int] exactly when it is integral. *)
Definition key_of (base : PyBase) : option Z :=
  match base with
  | BInt z => Some z
  | BFloat q => if Zpos (Qden (Qred q)) =? 1 then Some (Qnum (Qred q)) else None
  | BObj _ => None
  end.

(** [power * base] and [power // base] with a table power and a caller's base. *)
Definition py_mul (p : Z) (base : PyBase) : PyNum :=
  match base with
  | BInt b => NInt (p * b)
  | BFloat q => NFloat (inject_Z p * q)
  | BObj _ => NObj
  end.

Definition py_floordiv (p : Z) (base : PyBase) : PyNum :=
  match base with
  | BInt b => NInt (p / b)
  | BFloat q => NFloat (inject_Z (Qfloor (inject_Z p / q)))
  | BObj _ => NObj
  end.

(** ** The lookup table store *)

(** A checkpoint [(exponent, power)]; index 0 of a table holds [None]. *)
Abbreviation entry := (option (Z * Z)).
Abbreviation table := (list entry).
Abbreviation registry := (gmap Z table).

(** The state-and-exception monad; on an exception the state is unchanged. *)
Definition M (A : Type) := registry -> exn + (A * registry).

Definition ret {A} (a : A) : M A := fun st => inr (a, st).
Definition raise {A} (e : exn) : M A := fun _ => inl e.
Definition bind {A B} (m : M A) (k : A -> M B) : M B :=
  fun st => match m st with inl e => inl e | inr (a, st') => k a st' end.

Notation "'let*' x := m 'in' k" := (bind m (fun x => k))
  (at level 200, x name, m at level 100, k at level 200).

(** [_lut.setdefault(base, [None, (0, 1)])]. *)
Definition seed_table : table := [None; Some (0, 1)].

(** [_init_base(base)]: validate the base, then fetch or create its table;
    returns the table and its last checkpoint [limits[-1]]. *)
Definition _init_base (base : PyBase) : M (Z * table * Z * Z) :=
  match base with
  | BFloat _ | BObj _ => raise TypeError
  | BInt b =>
      if b <=? 1 then raise ValueError else
      fun st =>
        let limits := match st !! b with Some t => t | None => seed_table end in
        match last limits with
        | Some (Some (e, p)) => inr ((b, limits, e, p), <[b := limits]> st)
        | _ => inl TypeError
        end
  end.

(** [_init_next_power(limits, exponent, power)]: the loop
    [while len(limits) <= bitlen: limits.append((exponent, power))] appends
    the checkpoint at every index from [len(limits)] to [bitlen]. *)
Definition _init_next_power (limits : table) (exponent power : Z) : table * Z :=
  let bitlen := bit_length power in
  (limits ++ replicate (Z.to_nat (bitlen + 1 - Z.of_nat (length limits)))
                       (Some (exponent, power)), bitlen).

(** The [for exponent in range(exponent + 1, max_exponent + 1)] loop. *)
Fixpoint power_loop (n : nat) (base : Z) (limits : table) (exponent power : Z)
  : table * Z * Z :=
  match n with
  | O => (limits, exponent, power)
  | S n' =>
      let power' := power * base in
      let exponent' := exponent + 1 in
      power_loop n' base (_init_next_power limits exponent' power').1 exponent' power'
  end.

Definition extend_fast_range_to_power (max_exponent : Z) (base : PyBase) : M (Z * Z) :=
  let* r := _init_base base in
  let '(b, limits, exponent, power) := r in
  let '(limits', exponent', power') :=
    power_loop (Z.to_nat (max_exponent - exponent)) b limits exponent power in
  fun st => inr ((exponent', power'), <[b := limits']> st).

(** The [while bitlen < max_bitlen] loop; [fuel] bounds the iterations
    (each iteration raises [bitlen] by at least one, so
    [max_bitlen - bitlen] iterations suffice). *)
Fixpoint bitlen_loop (fuel : nat) (base max_bitlen : Z) (limits : table)
    (exponent power bitlen : Z) : table * Z * Z :=
  match fuel with
  | O => (limits, exponent, power)
  | S fuel' =>
      if bitlen <? max_bitlen then
        let power' := power * base in
        let exponent' := exponent + 1 in
        let '(limits', bitlen') := _init_next_power limits exponent' power' in
        bitlen_loop fuel' base max_bitlen limits' exponent' power' bitlen'
      else (limits, exponent, power)
  end.

Definition extend_fast_range_to_bitlen (max_bitlen : Z) (base : PyBase) : M (Z * Z) :=
  let* r := _init_base base in
  let '(b, limits, exponent, power) := r in
  let bitlen := Z.of_nat (length limits) - 1 in
  let '(limits', exponent', power') :=
    bitlen_loop (Z.to_nat (max_bitlen - bitlen)) b max_bitlen limits exponent power bitlen in
  fun st => inr ((exponent', power'), <[b := limits']> st).

(** [_lut[base][i]] followed by the unpacking [exponent, power = ...];
    hashing an unhashable base raises [TypeError]. *)
Definition lut_lookup (base : PyBase) (i : Z) : M (Z * Z) :=
  fun st =>
    match base with
    | BObj false => inl TypeError
    | _ =>
        match key_of base with
        | None => inl KeyError
        | Some k =>
            match st !! k with
            | None => inl KeyError
            | Some t =>
                match t !! Z.to_nat i with
                | None => inl IndexError
                | Some None => inl TypeError
                | Some (Some ep) => inr (ep, st)
                end
            end
        end
    end.

(** [try: _lut[base][value.bit_length()] except (KeyError, IndexError):
    extend_fast_range_to_bitlen(value.bit_length(), base)]. *)
Definition lut_fetch (value : Z) (base : PyBase) : M (Z * Z) :=
  fun st =>
    match lut_lookup base (bit_length value) st with
    | inl KeyError | inl IndexError => extend_fast_range_to_bitlen (bit_length value) base st
    | r => r
    end.

Definition check_value (value : Z) : M unit :=
  if value <=? 0 then raise ValueError else ret tt.

(** ** Rounding table [_ROUNDING] *)

(** The functions of the [operator] module that the table refers to. *)
Inductive AddOp := op_add | op_sub.
Inductive CmpOp := op_ge | op_gt | op_le | op_lt.
Inductive MulOp := op_mul | op_floordiv.

#[global] Instance CmpOp_eq_dec : EqDecision CmpOp.
Proof. solve_decision. Defined.

Definition apply_add (o : AddOp) (x y : Z) : Z :=
  match o with op_add => x + y | op_sub => x - y end.

Definition apply_cmp (o : CmpOp) (x y : Z) : bool :=
  match o with
  | op_ge => y <=? x | op_gt => y <? x | op_le => x <=? y | op_lt => x <? y
  end.

Definition apply_mul (o : MulOp) (p : Z) (base : PyBase) : PyNum :=
  match o with op_mul => py_mul p base | op_floordiv => py_floordiv p base end.

(** [getattr(operator, name)] for the four names used. *)
Definition operator_attr (name : string) : option CmpOp :=
  match name with
  | "gt" => Some op_gt | "ge" => Some op_ge
  | "lt" => Some op_lt | "le" => Some op_le
  | _ => None
  end%string.

(** A key passed as [rounding]: a string, one of the four comparison
    functions of [operator], any other hashable object (an [int], [None],
    another function, ...; it equals no key of the table), or an unhashable
    object (a [list], a [dict], ...). *)
Inductive RoundKey := RStr (s : string) | ROp (o : CmpOp) | RObj (id : nat) | RUnhashable.

#[global] Instance RoundKey_eq_dec : EqDecision RoundKey.
Proof. solve_decision. Defined.

(** [(add_op, cmp_op, mul_op, slow_cmp_op, sub)]. *)
Abbreviation rounding := (AddOp * CmpOp * MulOp * CmpOp * Z)%type.

Definition _ROUNDING_base : list (string * rounding) :=
  [("gt", (op_add, op_ge, op_mul, op_le, 0));
   ("ge", (op_add, op_gt, op_mul, op_lt, 0));
   ("lt", (op_sub, op_le, op_floordiv, op_lt, 1));
   ("le", (op_sub, op_lt, op_floordiv, op_le, 1))]%string.

Definition _ROUNDING_aliases : list (string * string) :=
  [(">", "gt"); (">=", "ge"); ("≥", "ge"); ("<", "lt"); ("<=", "le"); ("≤", "le")]%string.

(** The dictionary as its list of assignments, in program order. *)
Definition _ROUNDING : list (RoundKey * rounding) :=
  map (fun '(n, v) => (RStr n, v)) _ROUNDING_base
  ++ omap (fun '(n, v) => o ← operator_attr n; Some (ROp o, v)) _ROUNDING_base
  ++ omap (fun '(a, n) => v ← list_to_map (M := gmap string rounding) _ROUNDING_base !! n;
                          Some (RStr a, v)) _ROUNDING_aliases.

(** [_ROUNDING[key]]: the last assignment to [key] wins; hashing an
    unhashable key raises [TypeError]. *)
Definition rounding_get (key : RoundKey) : exn + rounding :=
  match key with
  | RUnhashable => inl TypeError
  | _ =>
      match snd <$> list_find (fun kv => kv.1 = key) (reverse _ROUNDING) with
      | Some (_, v) => inr v
      | None => inl KeyError
      end
  end.

Definition rounding_lookup (key : RoundKey) : M rounding :=
  match rounding_get key with inr v => ret v | inl e => raise e end.

(** ** Auto-extending queries *)

Definition gt_log (value : Z) (base : PyBase) : M Z :=
  let* _ := check_value value in
  let* ep := lut_fetch value base in
  ret (ep.1 + py_bool (ep.2 <=? value)).

Definition ge_log (value : Z) (base : PyBase) : M Z :=
  let* _ := check_value value in
  let* ep := lut_fetch value base in
  ret (ep.1 + py_bool (ep.2 <? value)).

Definition lt_log (value : Z) (base : PyBase) : M Z :=
  let* _ := check_value value in
  let* ep := lut_fetch value base in
  ret (ep.1 - py_bool (value <=? ep.2)).

Definition le_log (value : Z) (base : PyBase) : M Z :=
  let* _ := check_value value in
  let* ep := lut_fetch value base in
  ret (ep.1 - py_bool (value <? ep.2)).

Definition int_log (value : Z) (base : PyBase) (rounding : RoundKey) : M Z :=
  let* _ := check_value value in
  let* r := rounding_lookup rounding in
  let '(add_op, cmp_op, _, _, _) := r in
  let* ep := lut_fetch value base in
  ret (apply_add add_op ep.1 (py_bool (apply_cmp cmp_op value ep.2))).

Definition gt_pow (value : Z) (base : PyBase) : M PyNum :=
  let* _ := check_value value in
  let* ep := lut_fetch value base in
  ret (if ep.2 <=? value then py_mul ep.2 base else NInt ep.2).

Definition ge_pow (value : Z) (base : PyBase) : M PyNum :=
  let* _ := check_value value in
  let* ep := lut_fetch value base in
  ret (if ep.2 <? value then py_mul ep.2 base else NInt ep.2).

Definition lt_pow (value : Z) (base : PyBase) : M PyNum :=
  let* _ := check_value value in
  let* ep := lut_fetch value base in
  ret (if value <=? ep.2 then py_floordiv ep.2 base else NInt ep.2).

Definition le_pow (value : Z) (base : PyBase) : M PyNum :=
  let* _ := check_value value in
  let* ep := lut_fetch value base in
  ret (if value <? ep.2 then py_floordiv ep.2 base else NInt ep.2).

Definition int_pow (value : Z) (base : PyBase) (rounding : RoundKey) : M PyNum :=
  let* _ := check_value value in
  let* r := rounding_lookup rounding in
  let '(_, cmp_op, mul_op, _, _) := r in
  let* ep := lut_fetch value base in
  ret (if apply_cmp cmp_op value ep.2 then apply_mul mul_op ep.2 base else NInt ep.2).

(** ** Pre-extended ([fast_*]) queries: no check, no extension *)

Definition fast_gt_log (value : Z) (base : PyBase) : M Z :=
  let* ep := lut_lookup base (bit_length value) in
  ret (ep.1 + py_bool (ep.2 <=? value)).

Definition fast_ge_log (value : Z) (base : PyBase) : M Z :=
  let* ep := lut_lookup base (bit_length value) in
  ret (ep.1 + py_bool (ep.2 <? value)).

Definition fast_lt_log (value : Z) (base : PyBase) : M Z :=
  let* ep := lut_lookup base (bit_length value) in
  ret (ep.1 - py_bool (value <=? ep.2)).

Definition fast_le_log (value : Z) (base : PyBase) : M Z :=
  let* ep := lut_lookup base (bit_length value) in
  ret (ep.1 - py_bool (value <? ep.2)).

Definition fast_int_log (value : Z) (base : PyBase) (rounding : RoundKey) : M Z :=
  let* r := rounding_lookup rounding in
  let '(add_op, cmp_op, _, _, _) := r in
  let* ep := lut_lookup base (bit_length value) in
  ret (apply_add add_op ep.1 (py_bool (apply_cmp cmp_op value ep.2))).

Definition fast_gt_pow (value : Z) (base : PyBase) : M PyNum :=
  let* ep := lut_lookup base (bit_length value) in
  ret (if ep.2 <=? value then py_mul ep.2 base else NInt ep.2).

Definition fast_ge_pow (value : Z) (base : PyBase) : M PyNum :=
  let* ep := lut_lookup base (bit_length value) in
  ret (if ep.2 <? value then py_mul ep.2 base else NInt ep.2).

Definition fast_lt_pow (value : Z) (base : PyBase) : M PyNum :=
  let* ep := lut_lookup base (bit_length value) in
  ret (if value <=? ep.2 then py_floordiv ep.2 base else NInt ep.2).

Definition fast_le_pow (value : Z) (base : PyBase) : M PyNum :=
  let* ep := lut_lookup base (bit_length value) in
  ret (if value <? ep.2 then py_floordiv ep.2 base else NInt ep.2).

Definition fast_int_pow (value : Z) (base : PyBase) (rounding : RoundKey) : M PyNum :=
  let* r := rounding_lookup rounding in
  let '(_, cmp_op, mul_op, _, _) := r in
  let* ep := lut_lookup base (bit_length value) in
  ret (if apply_cmp cmp_op value ep.2 then apply_mul mul_op ep.2 base else NInt ep.2).

(** ** Unaccelerated ([slow_*]) queries: no table *)

(** [while cmp_op(power, value): power *= base; exponent += 1]; returns the
    final [(power, exponent)].  For [base >= 2] the loop stops within
    [value + 1] iterations, which [fuel] allows, so the result is the
    loop's.  For [-1 <= base <= 1] the Python loop never ends (see
    [slow_loop_diverges]); the pair returned when [fuel] runs out is then
    not a result of the program, and no statement here relies on it. *)
Fixpoint slow_loop (fuel : nat) (cmp_op : CmpOp) (base value power exponent : Z)
  : Z * Z :=
  match fuel with
  | O => (power, exponent)
  | S fuel' =>
      if apply_cmp cmp_op power value
      then slow_loop fuel' cmp_op base value (power * base) (exponent + 1)
      else (power, exponent)
  end.

Definition slow_fuel (value : Z) : nat := S (Z.to_nat value).

Definition slow_gt_log (value base : Z) : exn + Z :=
  if value <=? 0 then inl ValueError else
  inr (slow_loop (slow_fuel value) op_le base value 1 0).2.

Definition slow_ge_log (value base : Z) : exn + Z :=
  if value <=? 0 then inl ValueError else
  inr (slow_loop (slow_fuel value) op_lt base value 1 0).2.

Definition slow_lt_log (value base : Z) : exn + Z :=
  if value <=? 0 then inl ValueError else
  inr ((slow_loop (slow_fuel value) op_lt base value 1 0).2 - 1).

Definition slow_le_log (value base : Z) : exn + Z :=
  if value <=? 0 then inl ValueError else
  inr ((slow_loop (slow_fuel value) op_le base value 1 0).2 - 1).

Definition slow_int_log (value base : Z) (rounding : RoundKey) : exn + Z :=
  if value <=? 0 then inl ValueError else
  match rounding_get rounding with
  | inl e => inl e
  | inr (_, _, _, cmp_op, sub) =>
      inr ((slow_loop (slow_fuel value) cmp_op base value 1 0).2 - sub)
  end.

Definition slow_gt_pow (value base : Z) : exn + Z :=
  if value <=? 0 then inl ValueError else
  inr (slow_loop (slow_fuel value) op_le base value 1 0).1.

Definition slow_ge_pow (value base : Z) : exn + Z :=
  if value <=? 0 then inl ValueError else
  inr (slow_loop (slow_fuel value) op_lt base value 1 0).1.

Definition slow_lt_pow (value base : Z) : exn + Z :=
  if value <=? 0 then inl ValueError else
  inr ((slow_loop (slow_fuel value) op_lt base value 1 0).1 / base).

Definition slow_le_pow (value base : Z) : exn + Z :=
  if value <=? 0 then inl ValueError else
  inr ((slow_loop (slow_fuel value) op_le base value 1 0).1 / base).

Definition slow_int_pow (value base : Z) (rounding : RoundKey) : exn + Z :=
  if value <=? 0 then inl ValueError else
  match rounding_get rounding with
  | inl e => inl e
  | inr (_, _, _, cmp_op, sub) =>
      let power := (slow_loop (slow_fuel value) cmp_op base value 1 0).1 in
      inr (if sub =? 0 then power else power / base)
  end.

(** ** Calls that change [_lut], and the states they reach *)

Inductive call :=
  | CExtendPower (max_exponent : Z) (base : PyBase)
  | CExtendBitlen (max_bitlen : Z) (base : PyBase)
  | CGtLog (value : Z) (base : PyBase) | CGeLog (value : Z) (base : PyBase)
  | CLtLog (value : Z) (base : PyBase) | CLeLog (value : Z) (base : PyBase)
  | CIntLog (value : Z) (base : PyBase) (rounding : RoundKey)
  | CGtPow (value : Z) (base : PyBase) | CGePow (value : Z) (base : PyBase)
  | CLtPow (value : Z) (base : PyBase) | CLePow (value : Z) (base : PyBase)
  | CIntPow (value : Z) (base : PyBase) (rounding : RoundKey).

(** The state after running [m]: unchanged when it raises. *)
Definition after {A} (m : M A) (st : registry) : registry :=
  match m st with inl _ => st | inr (_, st') => st' end.

Definition run_call (c : call) : registry -> registry :=
  match c with
  | CExtendPower n b => after (extend_fast_range_to_power n b)
  | CExtendBitlen n b => after (extend_fast_range_to_bitlen n b)
  | CGtLog v b => after (gt_log v b) | CGeLog v b => after (ge_log v b)
  | CLtLog v b => after (lt_log v b) | CLeLog v b => after (le_log v b)
  | CIntLog v b r => after (int_log v b r)
  | CGtPow v b => after (gt_pow v b) | CGePow v b => after (ge_pow v b)
  | CLtPow v b => after (lt_pow v b) | CLePow v b => after (le_pow v b)
  | CIntPow v b r => after (int_pow v b r)
  end.

(** The [_lut] states of a running program: the empty dictionary at import,
    then any sequence of calls ([fast_*] and [slow_*] calls leave it as is). *)
Inductive reachable : registry -> Prop :=
  | reach_init : reachable ∅
  | reach_call st c : reachable st -> reachable (run_call c st).

(** A sequence of calls, run left to right. *)
Definition run_calls (cs : list call) (st : registry) : registry :=
  fold_left (fun s c => run_call c s) cs st.

(** The two extension calls for base [b]. *)
Definition extend_call_of (b : Z) (c : call) : Prop :=
  exists n, c = CExtendPower n (BInt b) \/ c = CExtendBitlen n (BInt b).

(** The calls [_test_funcs] makes for one base with the auto-extending
    functions: for each [value in range(1, max_value + 1)], the eight
    queries in the order of its body. *)
Definition test_value_calls (base : PyBase) (value : Z) : list call :=
  [CGtLog value base; CGtPow value base; CGeLog value base; CGePow value base;
   CLtLog value base; CLtPow value base; CLeLog value base; CLePow value base].

Definition test_funcs_calls (base : PyBase) (max_value : Z) : list call :=
  flat_map (test_value_calls base) (map Z.of_nat (seq 1 (Z.to_nat max_value))).

(** Every table of [st] is a prefix of the table of the same base in [st']. *)
Definition grows (st st' : registry) : Prop :=
  forall b t, st !! b = Some t -> exists ext, st' !! b = Some (t ++ ext).

(** ** Rounding modes and the named functions of each discipline *)

Inductive mode := Gt | Ge | Lt | Le.

Definition auto_log (m : mode) : Z -> PyBase -> M Z :=
  match m with Gt => gt_log | Ge => ge_log | Lt => lt_log | Le => le_log end.
Definition auto_pow (m : mode) : Z -> PyBase -> M PyNum :=
  match m with Gt => gt_pow | Ge => ge_pow | Lt => lt_pow | Le => le_pow end.
Definition fast_log (m : mode) : Z -> PyBase -> M Z :=
  match m with Gt => fast_gt_log | Ge => fast_ge_log | Lt => fast_lt_log | Le => fast_le_log end.
Definition fast_pow (m : mode) : Z -> PyBase -> M PyNum :=
  match m with Gt => fast_gt_pow | Ge => fast_ge_pow | Lt => fast_lt_pow | Le => fast_le_pow end.
Definition slow_log (m : mode) : Z -> Z -> exn + Z :=
  match m with Gt => slow_gt_log | Ge => slow_ge_log | Lt => slow_lt_log | Le => slow_le_log end.
Definition slow_pow (m : mode) : Z -> Z -> exn + Z :=
  match m with Gt => slow_gt_pow | Ge => slow_ge_pow | Lt => slow_lt_pow | Le => slow_le_pow end.

(** The keys of [_ROUNDING] naming each mode: tag, [operator] function, symbols. *)
Definition aliases (m : mode) : list RoundKey :=
  match m with
  | Gt => [RStr "gt"; ROp op_gt; RStr ">"]
  | Ge => [RStr "ge"; ROp op_ge; RStr ">="; RStr "≥"]
  | Lt => [RStr "lt"; ROp op_lt; RStr "<"]
  | Le => [RStr "le"; ROp op_le; RStr "<="; RStr "≤"]
  end%string.

(** All the keys of [_ROUNDING]. *)
Definition rounding_keys : list RoundKey :=
  aliases Gt ++ aliases Ge ++ aliases Lt ++ aliases Le.

(** ** Invariant of the tables *)

(** [(e, p)] is the checkpoint for bit length [i]: [p = b ^ e] is the least
    power of [b] whose bit length is at least [i]. *)
Definition checkpoint_ok (b i e p : Z) : Prop :=
  p = b ^ e /\ 0 <= e /\ i <= bit_length p /\ (e = 0 \/ bit_length (b ^ (e - 1)) < i).

(** A table of base [b] whose last checkpoint has exponent [e]. *)
Definition tinv (b : Z) (t : table) (e : Z) : Prop :=
  t !! 0%nat = Some None /\
  (forall (i : nat) ep, (1 <= i)%nat -> t !! i = Some ep ->
     exists e' p', ep = Some (e', p') /\ checkpoint_ok b (Z.of_nat i) e' p') /\
  Z.of_nat (length t) = bit_length (b ^ e) + 1 /\
  last t = Some (Some (e, b ^ e)) /\ 0 <= e.

Definition reg_inv (st : registry) : Prop :=
  forall (b : Z) (t : table), st !! b = Some t -> 2 <= b /\ exists e, tinv b t e.



(** [b ^ e] is the least power of [b] whose bit length is at least [i]. *)
Definition least_power_exp (b i e : Z) : Prop :=
  0 <= e /\ i <= bit_length (b ^ e) /\
  (forall k, 0 <= k -> i <= bit_length (b ^ k) -> e <= k).

(** ** Arithmetic of [bit_length] *)

Lemma bit_length_pos x : 1 <= x -> bit_length x = Z.log2 x + 1.
Proof.
  intros H. unfold bit_length.
  destruct (Z.eqb_spec x 0); [lia|]. rewrite Z.abs_eq by lia. reflexivity.
Qed.

Lemma bit_length_ge1 x : 1 <= x -> 1 <= bit_length x.
Proof. intros H. rewrite bit_length_pos by lia. pose proof (Z.log2_nonneg x). lia. Qed.

Lemma bit_length_mono x y : 1 <= x -> x <= y -> bit_length x <= bit_length y.
Proof.
  intros Hx Hy. rewrite !bit_length_pos by lia.
  pose proof (Z.log2_le_mono x y Hy). lia.
Qed.

Lemma bit_length_lt x y : 1 <= x -> 1 <= y -> bit_length x < bit_length y -> x < y.
Proof.
  intros Hx Hy H. destruct (Z.lt_ge_cases x y) as [|Hc]; [assumption|].
  pose proof (bit_length_mono y x Hy Hc). lia.
Qed.

Lemma bit_length_mul b p : 2 <= b -> 1 <= p -> bit_length p < bit_length (p * b).
Proof.
  intros Hb Hp. rewrite !bit_length_pos by nia.
  pose proof (Z.log2_le_mono (2 * p) (p * b) ltac:(nia)).
  rewrite Z.log2_double in H by lia. lia.
Qed.

Lemma bit_length_one : bit_length 1 = 1.
Proof. reflexivity. Qed.

(** ** Powers *)

Lemma pow_pos b k : 2 <= b -> 0 <= k -> 1 <= b ^ k.
Proof. intros Hb Hk. pose proof (Z.pow_pos_nonneg b k ltac:(lia) Hk). lia. Qed.

Lemma pow_succ b k : 0 <= k -> b ^ (k + 1) = b ^ k * b.
Proof. intros Hk. rewrite Z.pow_add_r by lia. lia. Qed.

Lemma pow_lt_mono b j k : 2 <= b -> 0 <= j -> j < k -> b ^ j < b ^ k.
Proof. intros Hb Hj Hjk. apply Z.pow_lt_mono_r; lia. Qed.

Lemma pow_le_mono b j k : 2 <= b -> 0 <= j -> j <= k -> b ^ j <= b ^ k.
Proof. intros Hb Hj Hjk. apply Z.pow_le_mono_r; lia. Qed.

(** ** The store preserves the invariant *)

Lemma seed_tinv b : 2 <= b -> tinv b seed_table 0.
Proof.
  intros Hb. unfold tinv, seed_table. split; [reflexivity|]. split.
  - intros i ep Hi Hl. destruct i as [|[|i]]; [lia| |discriminate].
    simpl in Hl. injection Hl as <-. exists 0, 1. split; [reflexivity|].
    unfold checkpoint_ok. rewrite bit_length_one, Z.pow_0_r. repeat split; try lia.
  - rewrite Z.pow_0_r, bit_length_one. repeat split; reflexivity || lia.
Qed.

Lemma init_next_power_tinv b t e :
  2 <= b -> tinv b t e ->
  let r := _init_next_power t (e + 1) (b ^ (e + 1)) in
  tinv b r.1 (e + 1) /\ r.2 = bit_length (b ^ (e + 1)) /\ t `prefix_of` r.1.
Proof.
  intros Hb (H0 & Hent & Hlen & Hlast & He). simpl.
  assert (HL : bit_length (b ^ e) < bit_length (b ^ (e + 1))).
  { rewrite pow_succ by lia. apply bit_length_mul; [lia|]. apply pow_pos; lia. }
  pose proof (bit_length_ge1 (b ^ e) (pow_pos b e Hb He)) as Hbl.
  set (n := Z.to_nat (bit_length (b ^ (e + 1)) + 1 - Z.of_nat (length t))).
  assert (Hn : Z.of_nat n = bit_length (b ^ (e + 1)) - bit_length (b ^ e)) by (unfold n; lia).
  split; [|split; [reflexivity|apply prefix_app_r; reflexivity]].
  split; [|split; [|split; [|split]]].
  - rewrite lookup_app_l by lia. exact H0.
  - intros i ep Hi Hl. apply lookup_app_Some in Hl as [Hl|[Hge Hl]].
    + apply (Hent i ep Hi Hl).
    + apply lookup_replicate in Hl as [-> Hlt].
      exists (e + 1), (b ^ (e + 1)). split; [reflexivity|]. unfold checkpoint_ok.
      replace (e + 1 - 1) with e by lia. lia.
  - rewrite length_app, length_replicate. lia.
  - rewrite last_app. destruct (last (replicate n _)) eqn:E.
    + apply last_Some_elem_of, elem_of_replicate in E as [-> _]. reflexivity.
    + apply last_None in E. apply (f_equal length) in E.
      rewrite length_replicate in E. simpl in E. lia.
  - lia.
Qed.

Lemma tinv_last_checkpoint b t e :
  2 <= b -> tinv b t e -> checkpoint_ok b (bit_length (b ^ e)) e (b ^ e).
Proof.
  intros Hb (H0 & Hent & Hlen & Hlast & He).
  pose proof (bit_length_ge1 (b ^ e) (pow_pos b e Hb He)).
  rewrite last_lookup in Hlast.
  destruct (Hent (pred (length t)) _ ltac:(lia) Hlast)
    as (e' & p' & [= <- <-] & Hc).
  replace (Z.of_nat (pred (length t))) with (bit_length (b ^ e)) in Hc by lia.
  exact Hc.
Qed.

Lemma power_loop_tinv b n : 2 <= b ->
  forall t e t' e' p', tinv b t e ->
  power_loop n b t e (b ^ e) = (t', e', p') ->
  tinv b t' e' /\ p' = b ^ e' /\ t `prefix_of` t'.
Proof.
  intros Hb. induction n as [|n IH]; intros t e t' e' p' Ht Hrun; cbn [power_loop] in Hrun.
  - injection Hrun as <- <- <-. split; [exact Ht|]. split; reflexivity.
  - destruct (init_next_power_tinv b t e Hb Ht) as (Ht1 & _ & Hp1).
    rewrite <- pow_succ in Hrun by (destruct Ht as (_ & _ & _ & _ & ?); lia).
    destruct (IH _ _ _ _ _ Ht1 Hrun) as (? & ? & ?).
    split; [assumption|]. split; [assumption|]. etrans; eassumption.
Qed.

Lemma bitlen_loop_stop fuel b L t e p bl :
  L <= bl -> bitlen_loop fuel b L t e p bl = (t, e, p).
Proof.
  intros H. destruct fuel; simpl; [reflexivity|].
  destruct (Z.ltb_spec bl L); [lia|reflexivity].
Qed.

Lemma bitlen_loop_tinv b L fuel : 2 <= b ->
  forall t e t' e' p', tinv b t e ->
  bitlen_loop fuel b L t e (b ^ e) (bit_length (b ^ e)) = (t', e', p') ->
  tinv b t' e' /\ p' = b ^ e' /\ t `prefix_of` t' /\
  (bit_length (b ^ e) <= L -> L - bit_length (b ^ e) <= Z.of_nat fuel ->
   checkpoint_ok b L e' p').
Proof.
  intros Hb. induction fuel as [|fuel IH]; intros t e t' e' p' Ht Hrun; cbn [bitlen_loop] in Hrun.
  - injection Hrun as <- <- <-. split; [exact Ht|]. split; [reflexivity|].
    split; [reflexivity|]. intros H1 H2.
    replace L with (bit_length (b ^ e)) by lia. eapply tinv_last_checkpoint; eassumption.
  - destruct (Z.ltb_spec (bit_length (b ^ e)) L) as [Hlt|Hge].
    + destruct (init_next_power_tinv b t e Hb Ht) as (Ht1 & Hbl1 & Hp1).
      rewrite <- pow_succ in Hrun by (destruct Ht as (_ & _ & _ & _ & ?); lia).
      destruct (_init_next_power t (e + 1) (b ^ (e + 1))) as [t1 bl1] eqn:E.
      simpl in Ht1, Hbl1, Hp1. subst bl1.
      destruct (IH _ _ _ _ _ Ht1 Hrun) as (Ht' & Hp' & Hpre & Hck).
      split; [assumption|]. split; [assumption|]. split; [etrans; eassumption|].
      intros _ Hfuel.
      assert (Hgrow : bit_length (b ^ e) < bit_length (b ^ (e + 1))).
      { rewrite pow_succ by (destruct Ht as (_ & _ & _ & _ & ?); lia).
        apply bit_length_mul; [lia|]. apply pow_pos; [lia|].
        destruct Ht as (_ & _ & _ & _ & ?); lia. }
      destruct (Z.le_gt_cases (bit_length (b ^ (e + 1))) L) as [Hle|Hgt].
      * apply Hck; lia.
      * rewrite bitlen_loop_stop in Hrun by lia. injection Hrun as <- <- <-.
        destruct Ht as (_ & _ & _ & _ & He).
        unfold checkpoint_ok. replace (e + 1 - 1) with e by lia. lia.
    + injection Hrun as <- <- <-. split; [exact Ht|]. split; [reflexivity|].
      split; [reflexivity|]. intros H1 H2.
      replace L with (bit_length (b ^ e)) by lia. eapply tinv_last_checkpoint; eassumption.
Qed.

Lemma reg_inv_empty : reg_inv ∅.
Proof. intros b t H. rewrite lookup_empty in H. discriminate. Qed.

Lemma reg_inv_insert st b t e :
  reg_inv st -> 2 <= b -> tinv b t e -> reg_inv (<[b := t]> st).
Proof.
  intros Hst Hb Ht k t' Hk. destruct (decide (k = b)) as [->|Hne].
  - rewrite lookup_insert_eq in Hk. injection Hk as <-. eauto.
  - rewrite lookup_insert_ne in Hk by congruence. eauto.
Qed.

Lemma init_base_ok st b : reg_inv st -> 2 <= b ->
  exists t e, _init_base (BInt b) st = inr ((b, t, e, b ^ e), <[b := t]> st) /\
    tinv b t e /\ (st !! b = Some t \/ (st !! b = None /\ t = seed_table)).
Proof.
  intros Hst Hb. unfold _init_base.
  destruct (Z.leb_spec b 1) as [|_]; [lia|].
  destruct (st !! b) as [t|] eqn:Hl.
  - destruct (Hst b t Hl) as [_ [e Ht]].
    pose proof Ht as (_ & _ & _ & Hlast & _).
    exists t, e. rewrite Hlast. split; [reflexivity|]. split; [exact Ht|]. left; reflexivity.
  - exists seed_table, 0. rewrite Z.pow_0_r. split; [reflexivity|].
    split; [apply seed_tinv; lia|]. right; split; reflexivity.
Qed.

Lemma init_base_not_int st q : _init_base (BFloat q) st = inl TypeError.
Proof. reflexivity. Qed.

Lemma extend_bitlen_ok st b L : reg_inv st -> 2 <= b ->
  exists t' e', extend_fast_range_to_bitlen L (BInt b) st = inr ((e', b ^ e'), <[b := t']> st) /\
    tinv b t' e' /\ (forall t, st !! b = Some t -> t `prefix_of` t') /\
    ((forall t, st !! b = Some t -> Z.of_nat (length t) - 1 <= L) -> 1 <= L ->
     checkpoint_ok b L e' (b ^ e')).
Proof.
  intros Hst Hb. destruct (init_base_ok st b Hst Hb) as (t & e & Hinit & Ht & Hwhich).
  unfold extend_fast_range_to_bitlen, bind. rewrite Hinit.
  pose proof Ht as (_ & _ & Hlen & _ & He).
  rewrite Hlen. replace (bit_length (b ^ e) + 1 - 1) with (bit_length (b ^ e)) by lia.
  destruct (bitlen_loop _ b L t e (b ^ e) (bit_length (b ^ e))) as [[t' e'] p'] eqn:Hrun.
  destruct (bitlen_loop_tinv b L _ Hb t e t' e' p' Ht Hrun) as (Ht' & -> & Hpre & Hck).
  exists t', e'. split; [rewrite insert_insert_eq; reflexivity|].
  split; [exact Ht'|]. split.
  - intros t0 Ht0. destruct Hwhich as [H|[H _]]; rewrite H in Ht0; [injection Ht0 as <-; exact Hpre|discriminate].
  - intros Hcov HL. apply Hck; [|lia].
    destruct Hwhich as [H|[_ ->]].
    + specialize (Hcov t H). lia.
    + simpl in Hlen. lia.
Qed.

Lemma extend_power_ok st b n : reg_inv st -> 2 <= b ->
  exists t' e', extend_fast_range_to_power n (BInt b) st = inr ((e', b ^ e'), <[b := t']> st) /\
    tinv b t' e' /\ (forall t, st !! b = Some t -> t `prefix_of` t').
Proof.
  intros Hst Hb. destruct (init_base_ok st b Hst Hb) as (t & e & Hinit & Ht & Hwhich).
  unfold extend_fast_range_to_power, bind. rewrite Hinit.
  destruct (power_loop _ b t e (b ^ e)) as [[t' e'] p'] eqn:Hrun.
  destruct (power_loop_tinv b _ Hb t e t' e' p' Ht Hrun) as (Ht' & -> & Hpre).
  exists t', e'. split; [rewrite insert_insert_eq; reflexivity|].
  split; [exact Ht'|].
  intros t0 Ht0. destruct Hwhich as [H|[H _]]; rewrite H in Ht0;
    [injection Ht0 as <-; exact Hpre|discriminate].
Qed.

(** Both extension calls, for any base: they preserve [reg_inv]. *)
Lemma extend_bitlen_inv st L base r st' :
  reg_inv st -> extend_fast_range_to_bitlen L base st = inr (r, st') -> reg_inv st'.
Proof.
  intros Hst H. destruct base as [b|q|h]; [|discriminate..].
  destruct (Z.leb_spec b 1).
  - unfold extend_fast_range_to_bitlen, bind, _init_base in H.
    destruct (Z.leb_spec b 1); [discriminate|lia].
  - destruct (extend_bitlen_ok st b L Hst ltac:(lia)) as (t' & e' & Hrun & Ht' & _).
    rewrite Hrun in H. injection H as _ <-. eapply reg_inv_insert; eauto; lia.
Qed.

Lemma extend_power_inv st n base r st' :
  reg_inv st -> extend_fast_range_to_power n base st = inr (r, st') -> reg_inv st'.
Proof.
  intros Hst H. destruct base as [b|q|h]; [|discriminate..].
  destruct (Z.leb_spec b 1).
  - unfold extend_fast_range_to_power, bind, _init_base in H.
    destruct (Z.leb_spec b 1); [discriminate|lia].
  - destruct (extend_power_ok st b n Hst ltac:(lia)) as (t' & e' & Hrun & Ht' & _).
    rewrite Hrun in H. injection H as _ <-. eapply reg_inv_insert; eauto; lia.
Qed.

Lemma lut_lookup_state base i st r st' :
  lut_lookup base i st = inr (r, st') -> st' = st.
Proof.
  unfold lut_lookup. intros H.
  destruct base as [b|q|[|]]; try discriminate H;
  destruct (key_of _) as [z|]; try discriminate H;
  destruct (st !! z) as [l|]; try discriminate H;
  destruct (l !! Z.to_nat i) as [[ep|]|]; try discriminate H;
  injection H as _ <-; reflexivity.
Qed.

Lemma lut_fetch_inv st v base r st' :
  reg_inv st -> lut_fetch v base st = inr (r, st') -> reg_inv st'.
Proof.
  intros Hst. unfold lut_fetch.
  destruct (lut_lookup base (bit_length v) st) as [[]|[r0 st0]] eqn:E;
    try discriminate; try (apply extend_bitlen_inv; exact Hst).
  intros [= _ <-]. apply lut_lookup_state in E. subst. exact Hst.
Qed.

Lemma lut_fetch_ok st b v : reg_inv st -> 2 <= b -> 1 <= v ->
  exists e st', lut_fetch v (BInt b) st = inr ((e, b ^ e), st') /\ reg_inv st' /\
    checkpoint_ok b (bit_length v) e (b ^ e).
Proof.
  intros Hst Hb Hv. pose proof (bit_length_ge1 v Hv) as HL.
  destruct (extend_bitlen_ok st b (bit_length v) Hst Hb) as (t' & e' & Hext & Ht' & _ & Hck).
  unfold lut_fetch, lut_lookup. simpl key_of.
  destruct (st !! b) as [t|] eqn:Hl.
  - destruct (t !! Z.to_nat (bit_length v)) as [[[e p]|]|] eqn:Hi.
    + destruct (Hst b t Hl) as [_ [e0 (_ & Hent & _)]].
      destruct (Hent (Z.to_nat (bit_length v)) _ ltac:(lia) Hi) as (e1 & p1 & [= <- <-] & Hc).
      rewrite Z2Nat.id in Hc by lia. pose proof Hc as [-> _].
      exists e, st. rewrite Hl, Hi. split; [reflexivity|]. split; assumption.
    + destruct (Hst b t Hl) as [_ [e0 (_ & Hent & _)]].
      destruct (Hent (Z.to_nat (bit_length v)) _ ltac:(lia) Hi) as (? & ? & ? & _). discriminate.
    + rewrite Hl, Hi, Hext. exists e', (<[b := t']> st). split; [reflexivity|].
      split; [eapply reg_inv_insert; eauto|].
      apply Hck; [|exact HL]. intros t0 Ht0. injection Ht0 as <-.
      apply lookup_ge_None in Hi. lia.
  - rewrite Hl, Hext. exists e', (<[b := t']> st). split; [reflexivity|].
    split; [eapply reg_inv_insert; eauto|].
    apply Hck; [|exact HL]. intros t0 Ht0. discriminate.
Qed.

(** Every call keeps [reg_inv]: the only writes go through the two
    extension functions. *)
Ltac run_call_cases :=
  repeat match goal with
  | |- context [match check_value ?v ?s with _ => _ end] =>
      unfold check_value, raise, ret; destruct (v <=? 0)
  | |- context [match rounding_get ?r with _ => _ end] =>
      destruct (rounding_get r) as [|[[[[? ?] ?] ?] ?]]
  | |- context [match lut_fetch ?v ?b ?s with _ => _ end] =>
      destruct (lut_fetch v b s) as [|[? ?]] eqn:?
  end.

Lemma run_call_inv c st : reg_inv st -> reg_inv (run_call c st).
Proof.
  intros Hst. destruct c; simpl; unfold after;
  [ destruct (extend_fast_range_to_power _ _ st) as [|[r st']] eqn:E; [exact Hst|];
    eapply extend_power_inv; eassumption
  | destruct (extend_fast_range_to_bitlen _ _ st) as [|[r st']] eqn:E; [exact Hst|];
    eapply extend_bitlen_inv; eassumption
  | .. ].
  all: unfold gt_log, ge_log, lt_log, le_log, int_log, gt_pow, ge_pow, lt_pow, le_pow,
         int_pow, rounding_lookup, bind.
  all: run_call_cases; simpl; try exact Hst; eapply lut_fetch_inv; eassumption.
Qed.

Lemma reachable_inv st : reachable st -> reg_inv st.
Proof.
  induction 1; [apply reg_inv_empty|]. apply run_call_inv; assumption.
Qed.

(** ** Results of the queries *)

Lemma bind_check {A} v (k : unit -> M A) st :
  1 <= v -> bind (check_value v) k st = k tt st.
Proof. intros Hv. unfold bind, check_value. destruct (Z.leb_spec v 0); [lia|reflexivity]. Qed.

Lemma bind_ok {A B} (m : M A) (k : A -> M B) st a st' :
  m st = inr (a, st') -> bind m k st = k a st'.
Proof. intros H. unfold bind. rewrite H. reflexivity. Qed.

Lemma check_fail {A} v (k : unit -> M A) st :
  v <= 0 -> bind (check_value v) k st = inl ValueError.
Proof. intros Hv. unfold bind, check_value. destruct (Z.leb_spec v 0); [reflexivity|lia]. Qed.

Lemma queries_ok st b v : reg_inv st -> 2 <= b -> 1 <= v ->
  exists e st', checkpoint_ok b (bit_length v) e (b ^ e) /\ reg_inv st' /\
    lut_fetch v (BInt b) st = inr ((e, b ^ e), st') /\
    gt_log v (BInt b) st = inr (e + py_bool (b ^ e <=? v), st') /\
    ge_log v (BInt b) st = inr (e + py_bool (b ^ e <? v), st') /\
    lt_log v (BInt b) st = inr (e - py_bool (v <=? b ^ e), st') /\
    le_log v (BInt b) st = inr (e - py_bool (v <? b ^ e), st') /\
    gt_pow v (BInt b) st = inr (if b ^ e <=? v then NInt (b ^ e * b) else NInt (b ^ e), st') /\
    ge_pow v (BInt b) st = inr (if b ^ e <? v then NInt (b ^ e * b) else NInt (b ^ e), st') /\
    lt_pow v (BInt b) st = inr (if v <=? b ^ e then NInt (b ^ e / b) else NInt (b ^ e), st') /\
    le_pow v (BInt b) st = inr (if v <? b ^ e then NInt (b ^ e / b) else NInt (b ^ e), st').
Proof.
  intros Hst Hb Hv. destruct (lut_fetch_ok st b v Hst Hb Hv) as (e & st' & Hf & Hst' & Hc).
  exists e, st'. split; [exact Hc|]. split; [exact Hst'|]. split; [exact Hf|].
  unfold gt_log, ge_log, lt_log, le_log, gt_pow, ge_pow, lt_pow, le_pow.
  rewrite !bind_check by exact Hv. rewrite !(bind_ok _ _ _ _ _ Hf).
  repeat split.
Qed.

(** ** The single boundary comparison *)

(** [k] is the least exponent [>= 0] at which the loop condition
    [cmp_op(b ** k, v)] of the slow functions fails. *)
Definition least_exp (cmp : CmpOp) (b v k : Z) : Prop :=
  0 <= k /\ apply_cmp cmp (b ^ k) v = false /\
  (k = 0 \/ apply_cmp cmp (b ^ (k - 1)) v = true).

Lemma checkpoint_bounds b v e :
  2 <= b -> 1 <= v -> checkpoint_ok b (bit_length v) e (b ^ e) ->
  (1 <= e -> b ^ (e - 1) < v) /\ v < b ^ e * b /\ (e = 0 -> b ^ e = 1).
Proof.
  intros Hb Hv (_ & He & Hle & Hmin). split; [|split].
  - intros He1. destruct Hmin as [|Hmin]; [lia|].
    apply bit_length_lt; [apply pow_pos; lia|lia|exact Hmin].
  - apply bit_length_lt; [lia|pose proof (pow_pos b e Hb He); nia|].
    pose proof (bit_length_mul b (b ^ e) Hb (pow_pos b e Hb He)). lia.
  - intros ->. reflexivity.
Qed.

Lemma checkpoint_least b v e :
  2 <= b -> 1 <= v -> checkpoint_ok b (bit_length v) e (b ^ e) ->
  least_exp op_le b v (e + py_bool (b ^ e <=? v)) /\
  least_exp op_lt b v (e + py_bool (b ^ e <? v)).
Proof.
  intros Hb Hv Hc. pose proof Hc as (_ & He & _).
  destruct (checkpoint_bounds b v e Hb Hv Hc) as (Hlo & Hhi & H0).
  unfold least_exp, apply_cmp, py_bool. rewrite <- (pow_succ b e He) in Hhi.
  split.
  - destruct (Z.leb_spec (b ^ e) v).
    + replace (e + 1 - 1) with e by lia.
      split; [lia|]. split; [apply Z.leb_gt; lia|]. right. apply Z.leb_le; lia.
    + rewrite Z.add_0_r. split; [lia|]. split; [apply Z.leb_gt; lia|].
      destruct (Z.eq_dec e 0) as [|Hne]; [left; assumption|right].
      apply Z.leb_le. specialize (Hlo ltac:(lia)). lia.
  - destruct (Z.ltb_spec (b ^ e) v).
    + replace (e + 1 - 1) with e by lia.
      split; [lia|]. split; [apply Z.ltb_ge; lia|]. right. apply Z.ltb_lt; lia.
    + rewrite Z.add_0_r. split; [lia|]. split; [apply Z.ltb_ge; lia|].
      destruct (Z.eq_dec e 0) as [|Hne]; [left; assumption|right].
      apply Z.ltb_lt. specialize (Hlo ltac:(lia)). lia.
Qed.

(** The two loop conditions of the slow functions are [<=] and [<]. *)
Definition slow_cmp (cmp : CmpOp) : Prop := cmp = op_le \/ cmp = op_lt.

Lemma slow_cmp_antimono cmp x y v :
  slow_cmp cmp -> x <= y -> apply_cmp cmp y v = true -> apply_cmp cmp x v = true.
Proof.
  intros [-> | ->]; simpl; intros Hxy H.
  - apply Z.leb_le in H. apply Z.leb_le. lia.
  - apply Z.ltb_lt in H. apply Z.ltb_lt. lia.
Qed.

Lemma slow_cmp_false cmp x v : slow_cmp cmp -> v < x -> apply_cmp cmp x v = false.
Proof.
  intros [-> | ->]; simpl; intros H; [apply Z.leb_gt|apply Z.ltb_ge]; lia.
Qed.

Lemma least_exp_unique cmp b v k1 k2 :
  slow_cmp cmp -> 2 <= b -> least_exp cmp b v k1 -> least_exp cmp b v k2 -> k1 = k2.
Proof.
  intros Hcmp Hb.
  assert (Hone : forall j k, least_exp cmp b v j -> least_exp cmp b v k -> ~ j < k).
  { intros j k (Hj & Hjf & _) (Hk & _ & Hkt) Hlt. destruct Hkt as [|Hkt]; [lia|].
    assert (b ^ j <= b ^ (k - 1)) by (apply pow_le_mono; lia).
    rewrite (slow_cmp_antimono cmp (b ^ j) (b ^ (k - 1)) v Hcmp H Hkt) in Hjf.
    discriminate. }
  intros H1 H2. pose proof (Hone _ _ H1 H2). pose proof (Hone _ _ H2 H1). lia.
Qed.

(** ** The slow loop *)

Lemma slow_loop_spec cmp b v : slow_cmp cmp -> 2 <= b ->
  forall fuel j, 0 <= j -> (j = 0 \/ apply_cmp cmp (b ^ (j - 1)) v = true) ->
  v < b ^ (j + Z.of_nat fuel) ->
  exists k, slow_loop fuel cmp b v (b ^ j) j = (b ^ k, k) /\ least_exp cmp b v k.
Proof.
  intros Hcmp Hb. induction fuel as [|fuel IH]; intros j Hj Hprev Hfuel; simpl.
  - exists j. split; [reflexivity|]. split; [exact Hj|]. split; [|exact Hprev].
    apply slow_cmp_false; [exact Hcmp|]. rewrite Z.add_0_r in Hfuel. exact Hfuel.
  - destruct (apply_cmp cmp (b ^ j) v) eqn:Hc.
    + rewrite <- pow_succ by exact Hj. apply IH; [lia| |].
      * right. replace (j + 1 - 1) with j by lia. exact Hc.
      * replace (j + 1 + Z.of_nat fuel) with (j + Z.of_nat (S fuel)) by lia. exact Hfuel.
    + exists j. split; [reflexivity|]. split; [exact Hj|]. split; [exact Hc|exact Hprev].
Qed.

Lemma slow_loop_run cmp b v : slow_cmp cmp -> 2 <= b -> 1 <= v ->
  exists k, slow_loop (slow_fuel v) cmp b v 1 0 = (b ^ k, k) /\ least_exp cmp b v k.
Proof.
  intros Hcmp Hb Hv. change 1 with (b ^ 0).
  apply slow_loop_spec; [exact Hcmp|exact Hb|lia|left; reflexivity|].
  unfold slow_fuel. rewrite Nat2Z.inj_succ, Z2Nat.id by lia.
  pose proof (Z.pow_gt_lin_r 2 v ltac:(lia) ltac:(lia)).
  pose proof (Z.pow_le_mono_l 2 b v ltac:(lia)).
  assert (b ^ v <= b ^ (0 + Z.succ v)) by (apply pow_le_mono; lia).
  lia.
Qed.

(** The three disciplines in terms of [least_exp]. *)
Lemma slow_results b v : 2 <= b -> 1 <= v ->
  exists kle klt, least_exp op_le b v kle /\ least_exp op_lt b v klt /\
    slow_gt_log v b = inr kle /\ slow_ge_log v b = inr klt /\
    slow_lt_log v b = inr (klt - 1) /\ slow_le_log v b = inr (kle - 1) /\
    slow_gt_pow v b = inr (b ^ kle) /\ slow_ge_pow v b = inr (b ^ klt) /\
    slow_lt_pow v b = inr (b ^ klt / b) /\ slow_le_pow v b = inr (b ^ kle / b).
Proof.
  intros Hb Hv.
  destruct (slow_loop_run op_le b v ltac:(left; reflexivity) Hb Hv) as (kle & Hle & Hkle).
  destruct (slow_loop_run op_lt b v ltac:(right; reflexivity) Hb Hv) as (klt & Hlt & Hklt).
  exists kle, klt. split; [exact Hkle|]. split; [exact Hklt|].
  unfold slow_gt_log, slow_ge_log, slow_lt_log, slow_le_log,
    slow_gt_pow, slow_ge_pow, slow_lt_pow, slow_le_pow.
  destruct (Z.leb_spec v 0); [lia|]. rewrite Hle, Hlt. repeat split.
Qed.

Lemma checkpoint_formulas b v e :
  2 <= b -> 1 <= v -> checkpoint_ok b (bit_length v) e (b ^ e) ->
  exists kle klt, least_exp op_le b v kle /\ least_exp op_lt b v klt /\
    e + py_bool (b ^ e <=? v) = kle /\ e + py_bool (b ^ e <? v) = klt /\
    e - py_bool (v <=? b ^ e) = klt - 1 /\ e - py_bool (v <? b ^ e) = kle - 1 /\
    (if b ^ e <=? v then NInt (b ^ e * b) else NInt (b ^ e)) = NInt (b ^ kle) /\
    (if b ^ e <? v then NInt (b ^ e * b) else NInt (b ^ e)) = NInt (b ^ klt) /\
    (if v <=? b ^ e then NInt (b ^ e / b) else NInt (b ^ e)) = NInt (b ^ klt / b) /\
    (if v <? b ^ e then NInt (b ^ e / b) else NInt (b ^ e)) = NInt (b ^ kle / b).
Proof.
  intros Hb Hv Hc. pose proof Hc as (_ & He & _).
  destruct (checkpoint_least b v e Hb Hv Hc) as [Hle Hlt].
  eexists _, _. split; [exact Hle|]. split; [exact Hlt|].
  assert (Hdiv : b ^ e * b / b = b ^ e) by (apply Z.div_mul; lia).
  unfold py_bool.
  destruct (Z.leb_spec (b ^ e) v), (Z.ltb_spec (b ^ e) v),
    (Z.leb_spec v (b ^ e)), (Z.ltb_spec v (b ^ e)); try lia;
    rewrite ?Z.add_0_r, ?pow_succ by lia; repeat split; try lia; try congruence.
Qed.

Lemma auto_results st b v : reg_inv st -> 2 <= b -> 1 <= v ->
  exists kle klt st', least_exp op_le b v kle /\ least_exp op_lt b v klt /\ reg_inv st' /\
    gt_log v (BInt b) st = inr (kle, st') /\ ge_log v (BInt b) st = inr (klt, st') /\
    lt_log v (BInt b) st = inr (klt - 1, st') /\ le_log v (BInt b) st = inr (kle - 1, st') /\
    gt_pow v (BInt b) st = inr (NInt (b ^ kle), st') /\
    ge_pow v (BInt b) st = inr (NInt (b ^ klt), st') /\
    lt_pow v (BInt b) st = inr (NInt (b ^ klt / b), st') /\
    le_pow v (BInt b) st = inr (NInt (b ^ kle / b), st').
Proof.
  intros Hst Hb Hv.
  destruct (queries_ok st b v Hst Hb Hv)
    as (e & st' & Hc & Hst' & _ & H1 & H2 & H3 & H4 & H5 & H6 & H7 & H8).
  destruct (checkpoint_formulas b v e Hb Hv Hc)
    as (kle & klt & Hkle & Hklt & F1 & F2 & F3 & F4 & F5 & F6 & F7 & F8).
  exists kle, klt, st'. rewrite F1, F2, F3, F4, F5, F6, F7, F8 in *.
  do 3 (split; [assumption|]). repeat split; assumption.
Qed.

(** A table that covers [bit_length v] answers from the stored checkpoint. *)
Definition covers (st : registry) (b v : Z) : Prop :=
  exists t, st !! b = Some t /\ bit_length v < Z.of_nat (length t).

Lemma lut_lookup_covered st b v : reg_inv st -> 1 <= v -> covers st b v ->
  exists e, lut_lookup (BInt b) (bit_length v) st = inr ((e, b ^ e), st) /\
    checkpoint_ok b (bit_length v) e (b ^ e).
Proof.
  intros Hst Hv (t & Hl & Hlen). pose proof (bit_length_ge1 v Hv).
  destruct (Hst b t Hl) as [_ [e0 (_ & Hent & _)]].
  destruct (t !! Z.to_nat (bit_length v)) as [ep|] eqn:Hi.
  - destruct (Hent (Z.to_nat (bit_length v)) ep ltac:(lia) Hi) as (e & p & -> & Hc).
    rewrite Z2Nat.id in Hc by lia. pose proof Hc as [-> _].
    exists e. unfold lut_lookup. simpl. rewrite Hl, Hi. split; [reflexivity|exact Hc].
  - apply lookup_ge_None in Hi. lia.
Qed.

Lemma fast_results st b v : reg_inv st -> 2 <= b -> 1 <= v -> covers st b v ->
  exists kle klt, least_exp op_le b v kle /\ least_exp op_lt b v klt /\
    fast_gt_log v (BInt b) st = inr (kle, st) /\ fast_ge_log v (BInt b) st = inr (klt, st) /\
    fast_lt_log v (BInt b) st = inr (klt - 1, st) /\ fast_le_log v (BInt b) st = inr (kle - 1, st) /\
    fast_gt_pow v (BInt b) st = inr (NInt (b ^ kle), st) /\
    fast_ge_pow v (BInt b) st = inr (NInt (b ^ klt), st) /\
    fast_lt_pow v (BInt b) st = inr (NInt (b ^ klt / b), st) /\
    fast_le_pow v (BInt b) st = inr (NInt (b ^ kle / b), st).
Proof.
  intros Hst Hb Hv Hcov.
  destruct (lut_lookup_covered st b v Hst Hv Hcov) as (e & Hl & Hc).
  destruct (checkpoint_formulas b v e Hb Hv Hc)
    as (kle & klt & Hkle & Hklt & F1 & F2 & F3 & F4 & F5 & F6 & F7 & F8).
  exists kle, klt. split; [exact Hkle|]. split; [exact Hklt|].
  unfold fast_gt_log, fast_ge_log, fast_lt_log, fast_le_log,
    fast_gt_pow, fast_ge_pow, fast_lt_pow, fast_le_pow.
  rewrite !(bind_ok _ _ _ _ _ Hl). unfold ret. simpl.
  rewrite F1, F2, F3, F4, F5, F6, F7, F8. repeat split.
Qed.

Lemma least_le_facts b v k : 1 <= v -> least_exp op_le b v k ->
  1 <= k /\ b ^ (k - 1) <= v /\ v < b ^ k.
Proof.
  intros Hv (Hk & Hf & Hprev). simpl in Hf, Hprev. apply Z.leb_gt in Hf.
  destruct (Z.eq_dec k 0) as [->|Hk0]; [rewrite Z.pow_0_r in Hf; lia|].
  destruct Hprev as [|Hprev]; [lia|]. apply Z.leb_le in Hprev. lia.
Qed.

Lemma least_lt_facts b v k : least_exp op_lt b v k ->
  0 <= k /\ (k = 0 \/ b ^ (k - 1) < v) /\ v <= b ^ k.
Proof.
  intros (Hk & Hf & Hprev). simpl in Hf, Hprev. apply Z.ltb_ge in Hf.
  destruct Hprev as [->|Hprev]; [lia|]. apply Z.ltb_lt in Hprev. lia.
Qed.

(** ** Python's [base ** exponent] *)

Lemma py_pow_nonneg b k : 0 <= k -> py_pow b k = inject_Z (b ^ k).
Proof. intros Hk. unfold py_pow. destruct (Z.leb_spec 0 k); [reflexivity|lia]. Qed.

Lemma py_pow_minus_one_lt b v : 2 <= b -> 1 <= v -> (py_pow b (-1) < inject_Z v)%Q.
Proof.
  intros Hb Hv. unfold py_pow. simpl. rewrite Z.pow_1_r.
  apply Qlt_le_trans with 1%Q.
  - apply Qlt_shift_inv_r; [unfold Qlt; simpl; lia|].
    unfold Qlt, Qmult; simpl. lia.
  - unfold Qle; simpl. lia.
Qed.

Lemma py_pow_le b k v : 0 <= k -> b ^ k <= v -> (py_pow b k <= inject_Z v)%Q.
Proof. intros Hk H. rewrite py_pow_nonneg by exact Hk. rewrite <- Zle_Qle. exact H. Qed.

Lemma py_pow_lt b k v : 0 <= k -> b ^ k < v -> (py_pow b k < inject_Z v)%Q.
Proof. intros Hk H. rewrite py_pow_nonneg by exact Hk. rewrite <- Zlt_Qlt. exact H. Qed.

Lemma py_pow_ge b k v : 0 <= k -> v <= b ^ k -> (inject_Z v <= py_pow b k)%Q.
Proof. intros Hk H. rewrite py_pow_nonneg by exact Hk. rewrite <- Zle_Qle. exact H. Qed.

Lemma py_pow_gt b k v : 0 <= k -> v < b ^ k -> (inject_Z v < py_pow b k)%Q.
Proof. intros Hk H. rewrite py_pow_nonneg by exact Hk. rewrite <- Zlt_Qlt. exact H. Qed.

(** * Claims *)

(** C1: for every [int] base [>= 2] and value [>= 1], in every state of
    [_lut], the auto-extending logarithms satisfy their double inequalities
    (with Python's [**], so [base ** -1] is [1 / base]):
    gt: [base**(e-1) <= value < base**e]; ge: [base**(e-1) < value <= base**e];
    lt: [base**e < value <= base**(e+1)]; le: [base**e <= value < base**(e+1)]. *)
Theorem log_double_inequalities (st : registry) (b v : Z) :
  reachable st -> 2 <= b -> 1 <= v ->
  (exists e st', gt_log v (BInt b) st = inr (e, st') /\
     (py_pow b (e - 1) <= inject_Z v)%Q /\ (inject_Z v < py_pow b e)%Q) /\
  (exists e st', ge_log v (BInt b) st = inr (e, st') /\
     (py_pow b (e - 1) < inject_Z v)%Q /\ (inject_Z v <= py_pow b e)%Q) /\
  (exists e st', lt_log v (BInt b) st = inr (e, st') /\
     (py_pow b e < inject_Z v)%Q /\ (inject_Z v <= py_pow b (e + 1))%Q) /\
  (exists e st', le_log v (BInt b) st = inr (e, st') /\
     (py_pow b e <= inject_Z v)%Q /\ (inject_Z v < py_pow b (e + 1))%Q).
Proof.
  intros Hr Hb Hv. apply reachable_inv in Hr.
  destruct (auto_results st b v Hr Hb Hv)
    as (kle & klt & st' & Hle & Hlt & _ & H1 & H2 & H3 & H4 & _).
  destruct (least_le_facts b v kle Hv Hle) as (Hk1 & Hlo1 & Hhi1).
  destruct (least_lt_facts b v klt Hlt) as (Hk2 & Hlo2 & Hhi2).
  split; [|split; [|split]].
  - exists kle, st'. split; [exact H1|].
    split; [apply py_pow_le|apply py_pow_gt]; lia.
  - exists klt, st'. split; [exact H2|]. split; [|apply py_pow_ge; lia].
    destruct (Z.eq_dec klt 0) as [->|Hk0]; [apply py_pow_minus_one_lt; lia|].
    destruct Hlo2 as [|Hlo2]; [lia|]. apply py_pow_lt; lia.
  - exists (klt - 1), st'. split; [exact H3|].
    replace (klt - 1 + 1) with klt by lia. split; [|apply py_pow_ge; lia].
    destruct (Z.eq_dec klt 0) as [->|Hk0]; [apply py_pow_minus_one_lt; lia|].
    destruct Hlo2 as [|Hlo2]; [lia|]. apply py_pow_lt; lia.
  - exists (kle - 1), st'. split; [exact H4|].
    replace (kle - 1 + 1) with kle by lia.
    split; [apply py_pow_le|apply py_pow_gt]; lia.
Qed.

Lemma log_double_inequalities_witness :
  reachable ∅ /\ 2 <= 2 /\ 1 <= 5 /\
  (exists e st', gt_log 5 (BInt 2) ∅ = inr (e, st') /\
     (py_pow 2 (e - 1) <= inject_Z 5)%Q /\ (inject_Z 5 < py_pow 2 e)%Q) /\
  (exists e st', ge_log 5 (BInt 2) ∅ = inr (e, st') /\
     (py_pow 2 (e - 1) < inject_Z 5)%Q /\ (inject_Z 5 <= py_pow 2 e)%Q) /\
  (exists e st', lt_log 5 (BInt 2) ∅ = inr (e, st') /\
     (py_pow 2 e < inject_Z 5)%Q /\ (inject_Z 5 <= py_pow 2 (e + 1))%Q) /\
  (exists e st', le_log 5 (BInt 2) ∅ = inr (e, st') /\
     (py_pow 2 e <= inject_Z 5)%Q /\ (inject_Z 5 < py_pow 2 (e + 1))%Q).
Proof.
  split; [exact reach_init|]. split; [lia|]. split; [lia|].
  apply (log_double_inequalities ∅ 2 5); [exact reach_init|lia|lia].
Defined.

Lemma pow_div b k : 2 <= b -> 1 <= k -> b ^ k / b = b ^ (k - 1).
Proof.
  intros Hb Hk. replace k with (k - 1 + 1) at 1 by lia.
  rewrite pow_succ by lia. apply Z.div_mul. lia.
Qed.

(** C2: the power functions return the extremal powers of [base] around
    [value]: gt the least power [> value], ge the least power [>= value],
    le the greatest power [<= value], lt the greatest power [< value], except
    that [lt_pow(1, base)] returns the sentinel 0. *)
Theorem pow_extremal (st : registry) (b v : Z) :
  reachable st -> 2 <= b -> 1 <= v ->
  (exists r st', gt_pow v (BInt b) st = inr (NInt r, st') /\
     (exists k, 0 <= k /\ r = b ^ k) /\ v < r /\
     (forall k, 0 <= k -> v < b ^ k -> r <= b ^ k)) /\
  (exists r st', ge_pow v (BInt b) st = inr (NInt r, st') /\
     (exists k, 0 <= k /\ r = b ^ k) /\ v <= r /\
     (forall k, 0 <= k -> v <= b ^ k -> r <= b ^ k)) /\
  (exists r st', le_pow v (BInt b) st = inr (NInt r, st') /\
     (exists k, 0 <= k /\ r = b ^ k) /\ r <= v /\
     (forall k, 0 <= k -> b ^ k <= v -> b ^ k <= r)) /\
  (exists r st', lt_pow v (BInt b) st = inr (NInt r, st') /\
     (v = 1 -> r = 0) /\
     (1 < v -> (exists k, 0 <= k /\ r = b ^ k) /\ r < v /\
        (forall k, 0 <= k -> b ^ k < v -> b ^ k <= r))).
Proof.
  intros Hr Hb Hv. apply reachable_inv in Hr.
  destruct (auto_results st b v Hr Hb Hv)
    as (kle & klt & st' & Hle & Hlt & _ & _ & _ & _ & _ & H5 & H6 & H7 & H8).
  destruct (least_le_facts b v kle Hv Hle) as (Hk1 & Hlo1 & Hhi1).
  destruct (least_lt_facts b v klt Hlt) as (Hk2 & Hlo2 & Hhi2).
  split; [|split; [|split]].
  - eexists _, st'. split; [exact H5|]. split; [exists kle; split; [lia|reflexivity]|].
    split; [exact Hhi1|]. intros k Hk Hvk.
    destruct (Z.lt_ge_cases k kle); [|apply pow_le_mono; lia].
    assert (b ^ k <= b ^ (kle - 1)) by (apply pow_le_mono; lia). lia.
  - eexists _, st'. split; [exact H6|]. split; [exists klt; split; [lia|reflexivity]|].
    split; [exact Hhi2|]. intros k Hk Hvk.
    destruct (Z.lt_ge_cases k klt); [|apply pow_le_mono; lia].
    destruct Hlo2 as [|Hlo2]; [lia|].
    assert (b ^ k <= b ^ (klt - 1)) by (apply pow_le_mono; lia). lia.
  - eexists _, st'. split; [exact H8|]. rewrite pow_div by lia.
    split; [exists (kle - 1); split; [lia|reflexivity]|].
    split; [exact Hlo1|]. intros k Hk Hkv.
    destruct (Z.lt_ge_cases k kle); [apply pow_le_mono; lia|].
    assert (b ^ kle <= b ^ k) by (apply pow_le_mono; lia). lia.
  - eexists _, st'. split; [exact H7|]. split.
    + intros ->. destruct (Z.eq_dec klt 0) as [->|Hk0].
      * rewrite Z.pow_0_r. apply Z.div_small. lia.
      * destruct Hlo2 as [|Hlo2]; [lia|].
        pose proof (pow_pos b (klt - 1) Hb ltac:(lia)). lia.
    + intros Hv1. destruct (Z.eq_dec klt 0) as [->|Hk0].
      { rewrite Z.pow_0_r in Hhi2. lia. }
      destruct Hlo2 as [|Hlo2]; [lia|]. rewrite pow_div by lia.
      split; [exists (klt - 1); split; [lia|reflexivity]|].
      split; [exact Hlo2|]. intros k Hk Hkv.
      destruct (Z.lt_ge_cases k klt); [apply pow_le_mono; lia|].
      assert (b ^ klt <= b ^ k) by (apply pow_le_mono; lia). lia.
Qed.

Lemma pow_extremal_witness :
  reachable ∅ /\ 2 <= 3 /\ 1 <= 10 /\
  (exists r st', gt_pow 10 (BInt 3) ∅ = inr (NInt r, st') /\
     (exists k, 0 <= k /\ r = 3 ^ k) /\ 10 < r /\
     (forall k, 0 <= k -> 10 < 3 ^ k -> r <= 3 ^ k)) /\
  (exists r st', ge_pow 10 (BInt 3) ∅ = inr (NInt r, st') /\
     (exists k, 0 <= k /\ r = 3 ^ k) /\ 10 <= r /\
     (forall k, 0 <= k -> 10 <= 3 ^ k -> r <= 3 ^ k)) /\
  (exists r st', le_pow 10 (BInt 3) ∅ = inr (NInt r, st') /\
     (exists k, 0 <= k /\ r = 3 ^ k) /\ r <= 10 /\
     (forall k, 0 <= k -> 3 ^ k <= 10 -> 3 ^ k <= r)) /\
  (exists r st', lt_pow 10 (BInt 3) ∅ = inr (NInt r, st') /\
     (10 = 1 -> r = 0) /\
     (1 < 10 -> (exists k, 0 <= k /\ r = 3 ^ k) /\ r < 10 /\
        (forall k, 0 <= k -> 3 ^ k < 10 -> 3 ^ k <= r))).
Proof.
  split; [exact reach_init|]. split; [lia|]. split; [lia|].
  apply (pow_extremal ∅ 3 10); [exact reach_init|lia|lia].
Defined.

(** C3: for every [int] base [>= 2] and value [>= 1] and every rounding
    mode, the auto-extending, the pre-extended ([fast_*], when the table of
    the base covers [value.bit_length()]) and the unaccelerated ([slow_*])
    functions return the same logarithm and the same power. *)
Theorem disciplines_agree (st : registry) (b v : Z) :
  reachable st -> 2 <= b -> 1 <= v -> forall m : mode,
  (exists r, slow_log m v b = inr r /\
     (exists st', auto_log m v (BInt b) st = inr (r, st')) /\
     (covers st b v -> fast_log m v (BInt b) st = inr (r, st))) /\
  (exists r, slow_pow m v b = inr r /\
     (exists st', auto_pow m v (BInt b) st = inr (NInt r, st')) /\
     (covers st b v -> fast_pow m v (BInt b) st = inr (NInt r, st))).
Proof.
  intros Hr Hb Hv m. apply reachable_inv in Hr.
  destruct (auto_results st b v Hr Hb Hv)
    as (kle & klt & st' & Hle & Hlt & _ & A1 & A2 & A3 & A4 & A5 & A6 & A7 & A8).
  destruct (slow_results b v Hb Hv)
    as (kle' & klt' & Hle' & Hlt' & S1 & S2 & S3 & S4 & S5 & S6 & S7 & S8).
  assert (kle' = kle) as -> by (eapply least_exp_unique; [left; reflexivity|exact Hb|eassumption..]).
  assert (klt' = klt) as -> by (eapply least_exp_unique; [right; reflexivity|exact Hb|eassumption..]).
  assert (Hfast : covers st b v ->
    fast_gt_log v (BInt b) st = inr (kle, st) /\ fast_ge_log v (BInt b) st = inr (klt, st) /\
    fast_lt_log v (BInt b) st = inr (klt - 1, st) /\ fast_le_log v (BInt b) st = inr (kle - 1, st) /\
    fast_gt_pow v (BInt b) st = inr (NInt (b ^ kle), st) /\
    fast_ge_pow v (BInt b) st = inr (NInt (b ^ klt), st) /\
    fast_lt_pow v (BInt b) st = inr (NInt (b ^ klt / b), st) /\
    fast_le_pow v (BInt b) st = inr (NInt (b ^ kle / b), st)).
  { intros Hcov.
    destruct (fast_results st b v Hr Hb Hv Hcov)
      as (kle'' & klt'' & Hle'' & Hlt'' & F).
    assert (kle'' = kle) as -> by (eapply least_exp_unique; [left; reflexivity|exact Hb|eassumption..]).
    assert (klt'' = klt) as -> by (eapply least_exp_unique; [right; reflexivity|exact Hb|eassumption..]).
    exact F. }
  destruct m; simpl; split; (eexists; split; [eassumption|];
    split; [eexists; eassumption|]; intros Hcov; apply Hfast in Hcov; tauto).
Qed.

Lemma disciplines_agree_witness :
  reachable (run_call (CExtendBitlen 4 (BInt 3)) ∅) /\ 2 <= 3 /\ 1 <= 10 /\
  forall m : mode,
  (exists r, slow_log m 10 3 = inr r /\
     (exists st', auto_log m 10 (BInt 3) (run_call (CExtendBitlen 4 (BInt 3)) ∅) = inr (r, st')) /\
     (covers (run_call (CExtendBitlen 4 (BInt 3)) ∅) 3 10 ->
      fast_log m 10 (BInt 3) (run_call (CExtendBitlen 4 (BInt 3)) ∅)
        = inr (r, run_call (CExtendBitlen 4 (BInt 3)) ∅))) /\
  (exists r, slow_pow m 10 3 = inr r /\
     (exists st', auto_pow m 10 (BInt 3) (run_call (CExtendBitlen 4 (BInt 3)) ∅) = inr (NInt r, st')) /\
     (covers (run_call (CExtendBitlen 4 (BInt 3)) ∅) 3 10 ->
      fast_pow m 10 (BInt 3) (run_call (CExtendBitlen 4 (BInt 3)) ∅)
        = inr (NInt r, run_call (CExtendBitlen 4 (BInt 3)) ∅))).
Proof.
  assert (Hr : reachable (run_call (CExtendBitlen 4 (BInt 3)) ∅))
    by (apply reach_call; exact reach_init).
  split; [exact Hr|]. split; [lia|]. split; [lia|].
  apply (disciplines_agree _ 3 10 Hr); lia.
Defined.

(** C4 (as stated, refuted): [base ** lt_log(1, base) == lt_pow(1, base)]
    fails: [lt_log(1, 2)] is [-1], so [2 ** -1] is [0.5], while
    [lt_pow(1, 2)] is the sentinel [0]. *)
Lemma log_pow_consistency_lt_one :
  exists e r st1 st2,
    lt_log 1 (BInt 2) ∅ = inr (e, st1) /\ lt_pow 1 (BInt 2) st1 = inr (NInt r, st2) /\
    e = -1 /\ r = 0 /\ ~ (py_pow 2 e == inject_Z r)%Q.
Proof.
  do 4 eexists. split; [reflexivity|]. split; [reflexivity|].
  split; [reflexivity|]. split; [reflexivity|].
  unfold py_pow, Qeq. simpl. discriminate.
Qed.

Lemma lt_one_least b k : 2 <= b -> least_exp op_lt b 1 k -> k = 0.
Proof.
  intros Hb Hk. destruct (least_lt_facts b 1 k Hk) as (Hk0 & Hlo & _).
  destruct Hlo as [|Hlo]; [assumption|].
  destruct (Z.eq_dec k 0); [assumption|].
  pose proof (pow_pos b (k - 1) Hb ltac:(lia)). lia.
Qed.

(** C4 (amended): for every [int] base [>= 2] and value [>= 1], calling a
    logarithm and then the matching power function gives
    [base ** log == pow] for gt, ge and le, and for lt whenever
    [value >= 2]; for lt at [value == 1] the logarithm is [-1] and the
    power is the sentinel [0]. *)
Theorem log_pow_consistency (st : registry) (b v : Z) (m : mode) :
  reachable st -> 2 <= b -> 1 <= v ->
  exists e r st1 st2,
    auto_log m v (BInt b) st = inr (e, st1) /\
    auto_pow m v (BInt b) st1 = inr (NInt r, st2) /\
    ((m <> Lt \/ 2 <= v) -> (py_pow b e == inject_Z r)%Q) /\
    (m = Lt -> v = 1 -> e = -1 /\ r = 0).
Proof.
  intros Hr Hb Hv. apply reachable_inv in Hr.
  destruct (auto_results st b v Hr Hb Hv)
    as (kle & klt & st1 & Hle & Hlt & Hr1 & A1 & A2 & A3 & A4 & _).
  destruct (auto_results st1 b v Hr1 Hb Hv)
    as (kle' & klt' & st2 & Hle' & Hlt' & _ & _ & _ & _ & _ & B5 & B6 & B7 & B8).
  assert (kle' = kle) as -> by (eapply least_exp_unique; [left; reflexivity|exact Hb|eassumption..]).
  assert (klt' = klt) as -> by (eapply least_exp_unique; [right; reflexivity|exact Hb|eassumption..]).
  destruct (least_le_facts b v kle Hv Hle) as (Hk1 & _ & _).
  destruct (least_lt_facts b v klt Hlt) as (Hk2 & Hlo2 & Hhi2).
  destruct m; simpl; do 4 eexists; (split; [eassumption|]); (split; [eassumption|]);
    (split; [intros Hcase|intros Hm; discriminate || (intros ->)]).
  - rewrite py_pow_nonneg by lia. reflexivity.
  - rewrite py_pow_nonneg by lia. reflexivity.
  - destruct Hcase as [Hcase|Hcase]; [congruence|].
    destruct (Z.eq_dec klt 0) as [->|Hk0]; [rewrite Z.pow_0_r in Hhi2; lia|].
    rewrite pow_div by lia. rewrite py_pow_nonneg by lia. reflexivity.
  - pose proof (lt_one_least b klt Hb Hlt) as ->. split; [reflexivity|].
    rewrite Z.pow_0_r. apply Z.div_small. lia.
  - rewrite pow_div by lia. rewrite py_pow_nonneg by lia. reflexivity.
Qed.

Lemma log_pow_consistency_witness :
  reachable ∅ /\ 2 <= 2 /\ 1 <= 5 /\
  exists e r st1 st2,
    auto_log Lt 5 (BInt 2) ∅ = inr (e, st1) /\
    auto_pow Lt 5 (BInt 2) st1 = inr (NInt r, st2) /\
    ((Lt <> Lt \/ 2 <= 5) -> (py_pow 2 e == inject_Z r)%Q) /\
    (Lt = Lt -> 5 = 1 -> e = -1 /\ r = 0).
Proof.
  split; [exact reach_init|]. split; [lia|]. split; [lia|].
  apply (log_pow_consistency ∅ 2 5 Lt); [exact reach_init|lia|lia].
Defined.

(** ** Helpers on lookups and dispatch *)

Lemma table_entry st b t (i : nat) x :
  reg_inv st -> st !! b = Some t -> (1 <= i)%nat -> t !! i = Some x ->
  2 <= b /\ exists e, x = Some (e, b ^ e) /\ checkpoint_ok b (Z.of_nat i) e (b ^ e).
Proof.
  intros Hst Hl Hi Hx. destruct (Hst b t Hl) as [Hb [e0 (_ & Hent & _)]].
  split; [exact Hb|].
  destruct (Hent i x Hi Hx) as (e & p & -> & Hc). pose proof Hc as [-> _].
  exists e. split; [reflexivity|exact Hc].
Qed.

Lemma table_entry_at st b t (i : nat) :
  reg_inv st -> st !! b = Some t -> (1 <= i < length t)%nat ->
  exists e, t !! i = Some (Some (e, b ^ e)) /\ checkpoint_ok b (Z.of_nat i) e (b ^ e).
Proof.
  intros Hst Hl Hi. destruct (lookup_lt_is_Some_2 t i ltac:(lia)) as [x Hx].
  destruct (table_entry st b t i x Hst Hl ltac:(lia) Hx) as (_ & e & -> & Hc).
  exists e. split; [exact Hx|exact Hc].
Qed.

Lemma bit_length_nonneg x : 0 <= bit_length x.
Proof.
  unfold bit_length. destruct (x =? 0); [lia|].
  pose proof (Z.log2_nonneg (Z.abs x)). lia.
Qed.

Lemma bind_fail {A B} (m : M A) (k : A -> M B) st e :
  m st = inl e -> bind m k st = inl e.
Proof. intros H. unfold bind. rewrite H. reflexivity. Qed.

Lemma rounding_get_alias m k :
  In k (aliases m) ->
  rounding_get k = inr (match m with
                        | Gt => (op_add, op_ge, op_mul, op_le, 0)
                        | Ge => (op_add, op_gt, op_mul, op_lt, 0)
                        | Lt => (op_sub, op_le, op_floordiv, op_lt, 1)
                        | Le => (op_sub, op_lt, op_floordiv, op_le, 1)
                        end).
Proof.
  destruct m; simpl; intros Hk; repeat destruct Hk as [<-|Hk]; try contradiction;
    vm_compute; reflexivity.
Qed.

Lemma fast_log_lookup m v base st :
  fast_log m v base st
  = bind (lut_lookup base (bit_length v))
      (fun ep => ret (match m with
                      | Gt => ep.1 + py_bool (ep.2 <=? v)
                      | Ge => ep.1 + py_bool (ep.2 <? v)
                      | Lt => ep.1 - py_bool (v <=? ep.2)
                      | Le => ep.1 - py_bool (v <? ep.2)
                      end)) st.
Proof. destruct m; reflexivity. Qed.

Lemma fast_pow_lookup m v base st :
  fast_pow m v base st
  = bind (lut_lookup base (bit_length v))
      (fun ep => ret (match m with
                      | Gt => if ep.2 <=? v then py_mul ep.2 base else NInt ep.2
                      | Ge => if ep.2 <? v then py_mul ep.2 base else NInt ep.2
                      | Lt => if v <=? ep.2 then py_floordiv ep.2 base else NInt ep.2
                      | Le => if v <? ep.2 then py_floordiv ep.2 base else NInt ep.2
                      end)) st.
Proof. destruct m; reflexivity. Qed.

Lemma fast_int_alias m k v base st : In k (aliases m) ->
  fast_int_log v base k st = fast_log m v base st /\
  fast_int_pow v base k st = fast_pow m v base st.
Proof.
  intros Hk. pose proof (rounding_get_alias m k Hk) as Hg.
  unfold fast_int_log, fast_int_pow, rounding_lookup. rewrite Hg.
  destruct m; split; reflexivity.
Qed.

Lemma lut_lookup_key base k i st : key_of base = Some k ->
  lut_lookup base i st =
    match st !! k with
    | None => inl KeyError
    | Some t =>
        match t !! Z.to_nat i with
        | None => inl IndexError
        | Some None => inl TypeError
        | Some (Some ep) => inr (ep, st)
        end
    end.
Proof.
  intros Hk. destruct base as [z|q|[|]]; try discriminate Hk;
    unfold lut_lookup; rewrite Hk; reflexivity.
Qed.

Lemma fast_lookup_error m w base st x :
  lut_lookup base (bit_length w) st = inl x ->
  fast_log m w base st = inl x /\ fast_pow m w base st = inl x /\
  forall k, In k (aliases m) ->
    fast_int_log w base k st = inl x /\ fast_int_pow w base k st = inl x.
Proof.
  intros E. rewrite fast_log_lookup, fast_pow_lookup.
  split; [apply bind_fail, E|]. split; [apply bind_fail, E|].
  intros k Hk. destruct (fast_int_alias m k w base st Hk) as [-> ->].
  rewrite fast_log_lookup, fast_pow_lookup. split; apply bind_fail, E.
Qed.

(** C5 (as stated, refuted): the pre-extended functions do not check the
    value: once the table of base 2 covers bit length 2,
    [fast_gt_log(-3, 2)] returns 1 instead of raising [ValueError]. *)
Lemma fast_log_negative_value :
  reachable (run_call (CExtendBitlen 2 (BInt 2)) ∅) /\
  fast_gt_log (-3) (BInt 2) (run_call (CExtendBitlen 2 (BInt 2)) ∅)
    = inr (1, run_call (CExtendBitlen 2 (BInt 2)) ∅).
Proof.
  split; [apply reach_call; exact reach_init|]. vm_compute. reflexivity.
Qed.

(** C5 (amended): for [value <= 0], every auto-extending query (the four
    logarithms, the four powers, [int_log], [int_pow]) and every [slow_*]
    query raises [ValueError], for every base, rounding key and table state;
    a raising call leaves [_lut] as it was.  The [fast_*] functions (with
    [fast_int_log] and [fast_int_pow] given a key of [_ROUNDING]) have no
    such check: at [value = 0] with a table for the base they read the
    [None] entry at index 0 and raise [TypeError]; at a negative value, for
    an [int] base [b] whose table reaches index [abs(value).bit_length()],
    they read the checkpoint [(e, b ** e)] there and, since
    [value < b ** e], return [e] ([gt], [ge]) or [e - 1] ([lt], [le]) for
    the logarithms and [b ** e] ([gt], [ge]) or [b ** e // b] ([lt], [le])
    for the powers, leaving [_lut] unchanged. *)
Theorem nonpositive_value_rejected (st : registry) (v : Z) (base : PyBase) (b : Z)
    (rounding : RoundKey) :
  v <= 0 ->
  ((forall m : mode,
      auto_log m v base st = inl ValueError /\ auto_pow m v base st = inl ValueError /\
      slow_log m v b = inl ValueError /\ slow_pow m v b = inl ValueError) /\
   int_log v base rounding st = inl ValueError /\ int_pow v base rounding st = inl ValueError /\
   slow_int_log v b rounding = inl ValueError /\ slow_int_pow v b rounding = inl ValueError) /\
  (reachable st -> v = 0 -> forall k t, key_of base = Some k -> st !! k = Some t ->
   forall m,
     fast_log m v base st = inl TypeError /\ fast_pow m v base st = inl TypeError /\
     forall key, In key (aliases m) ->
       fast_int_log v base key st = inl TypeError /\ fast_int_pow v base key st = inl TypeError) /\
  (reachable st -> v < 0 -> forall t, st !! b = Some t -> bit_length v < Z.of_nat (length t) ->
   exists e, t !! Z.to_nat (bit_length v) = Some (Some (e, b ^ e)) /\
   forall m,
     let r := match m with Gt | Ge => e | Lt | Le => e - 1 end in
     let p := match m with Gt | Ge => b ^ e | Lt | Le => b ^ e / b end in
     fast_log m v (BInt b) st = inr (r, st) /\ fast_pow m v (BInt b) st = inr (NInt p, st) /\
     forall key, In key (aliases m) ->
       fast_int_log v (BInt b) key st = inr (r, st) /\
       fast_int_pow v (BInt b) key st = inr (NInt p, st)).
Proof.
  intros Hv.
  assert (Hs : (v <=? 0) = true) by (apply Z.leb_le; exact Hv).
  split; [|split].
  - split; [intros m; destruct m; simpl|].
    all: unfold gt_log, ge_log, lt_log, le_log, gt_pow, ge_pow, lt_pow, le_pow, int_log,
           int_pow, slow_gt_log, slow_ge_log, slow_lt_log, slow_le_log, slow_gt_pow,
           slow_ge_pow, slow_lt_pow, slow_le_pow, slow_int_log, slow_int_pow.
    all: rewrite ?check_fail by exact Hv; rewrite ?Hs; repeat split.
  - intros Hr -> k t Hk Hl m. destruct (reachable_inv st Hr k t Hl) as [_ [e (H0 & _)]].
    apply fast_lookup_error.
    rewrite (lut_lookup_key base k _ st Hk), Hl.
    change (Z.to_nat (bit_length 0)) with 0%nat. rewrite H0. reflexivity.
  - intros Hr Hneg t Hl Hlen. pose proof (reachable_inv st Hr) as Hst.
    assert (HL : 1 <= bit_length v).
    { unfold bit_length. destruct (Z.eqb_spec v 0); [lia|].
      pose proof (Z.log2_nonneg (Z.abs v)). lia. }
    destruct (table_entry_at st b t (Z.to_nat (bit_length v)) Hst Hl ltac:(lia))
      as (e & Hx & (_ & He & _)).
    exists e. split; [exact Hx|].
    destruct (Hst b t Hl) as [Hb _]. pose proof (pow_pos b e Hb He) as Hp.
    assert (E : lut_lookup (BInt b) (bit_length v) st = inr ((e, b ^ e), st)).
    { rewrite (lut_lookup_key (BInt b) b _ st eq_refl), Hl, Hx. reflexivity. }
    assert (H1 : (b ^ e <=? v) = false) by (apply Z.leb_gt; lia).
    assert (H2 : (b ^ e <? v) = false) by (apply Z.ltb_ge; lia).
    assert (H3 : (v <=? b ^ e) = true) by (apply Z.leb_le; lia).
    assert (H4 : (v <? b ^ e) = true) by (apply Z.ltb_lt; lia).
    assert (Hf : forall m,
      fast_log m v (BInt b) st = inr (match m with Gt | Ge => e | Lt | Le => e - 1 end, st) /\
      fast_pow m v (BInt b) st
        = inr (NInt (match m with Gt | Ge => b ^ e | Lt | Le => b ^ e / b end), st)).
    { intros m. rewrite fast_log_lookup, fast_pow_lookup. unfold bind. rewrite E.
      unfold ret. destruct m; cbn [fst snd]; rewrite ?H1, ?H2, ?H3, ?H4; unfold py_bool;
        split; try reflexivity; f_equal; f_equal; lia. }
    intros m r p. destruct (Hf m) as [Hlog Hpow].
    split; [exact Hlog|]. split; [exact Hpow|].
    intros key Hk. destruct (fast_int_alias m key v (BInt b) st Hk) as [-> ->].
    split; [exact Hlog|exact Hpow].
Qed.

Lemma nonpositive_value_rejected_witness :
  -3 <= 0 /\
  ((forall m : mode,
      auto_log m (-3) (BInt 2) (run_call (CExtendBitlen 2 (BInt 2)) ∅) = inl ValueError /\ auto_pow m (-3) (BInt 2) (run_call (CExtendBitlen 2 (BInt 2)) ∅) = inl ValueError /\
      slow_log m (-3) 2 = inl ValueError /\ slow_pow m (-3) 2 = inl ValueError) /\
   int_log (-3) (BInt 2) (RStr "le") (run_call (CExtendBitlen 2 (BInt 2)) ∅) = inl ValueError /\
   int_pow (-3) (BInt 2) (RStr "le") (run_call (CExtendBitlen 2 (BInt 2)) ∅) = inl ValueError /\
   slow_int_log (-3) 2 (RStr "le") = inl ValueError /\
   slow_int_pow (-3) 2 (RStr "le") = inl ValueError) /\
  (reachable (run_call (CExtendBitlen 2 (BInt 2)) ∅) -> -3 = 0 -> forall k t, key_of (BInt 2) = Some k -> (run_call (CExtendBitlen 2 (BInt 2)) ∅) !! k = Some t ->
   forall m,
     fast_log m (-3) (BInt 2) (run_call (CExtendBitlen 2 (BInt 2)) ∅) = inl TypeError /\ fast_pow m (-3) (BInt 2) (run_call (CExtendBitlen 2 (BInt 2)) ∅) = inl TypeError /\
     forall key, In key (aliases m) ->
       fast_int_log (-3) (BInt 2) key (run_call (CExtendBitlen 2 (BInt 2)) ∅) = inl TypeError /\
       fast_int_pow (-3) (BInt 2) key (run_call (CExtendBitlen 2 (BInt 2)) ∅) = inl TypeError) /\
  (reachable (run_call (CExtendBitlen 2 (BInt 2)) ∅) -> -3 < 0 -> forall t, (run_call (CExtendBitlen 2 (BInt 2)) ∅) !! 2 = Some t -> bit_length (-3) < Z.of_nat (length t) ->
   exists e, t !! Z.to_nat (bit_length (-3)) = Some (Some (e, 2 ^ e)) /\
   forall m,
     let r := match m with Gt | Ge => e | Lt | Le => e - 1 end in
     let p := match m with Gt | Ge => 2 ^ e | Lt | Le => 2 ^ e / 2 end in
     fast_log m (-3) (BInt 2) (run_call (CExtendBitlen 2 (BInt 2)) ∅) = inr (r, (run_call (CExtendBitlen 2 (BInt 2)) ∅)) /\ fast_pow m (-3) (BInt 2) (run_call (CExtendBitlen 2 (BInt 2)) ∅) = inr (NInt p, (run_call (CExtendBitlen 2 (BInt 2)) ∅)) /\
     forall key, In key (aliases m) ->
       fast_int_log (-3) (BInt 2) key (run_call (CExtendBitlen 2 (BInt 2)) ∅) = inr (r, (run_call (CExtendBitlen 2 (BInt 2)) ∅)) /\
       fast_int_pow (-3) (BInt 2) key (run_call (CExtendBitlen 2 (BInt 2)) ∅) = inr (NInt p, (run_call (CExtendBitlen 2 (BInt 2)) ∅))).
Proof.
  split; [lia|].
  apply (nonpositive_value_rejected (run_call (CExtendBitlen 2 (BInt 2)) ∅) (-3) (BInt 2) 2 (RStr "le")). lia.
Defined.

(** ** Invalid bases *)


Lemma rounding_lookup_alias m k :
  In k (aliases m) -> exists r, rounding_lookup k = ret r /\ rounding_get k = inr r.
Proof.
  destruct m; simpl; intros Hk; repeat destruct Hk as [<-|Hk]; try contradiction;
    eexists; split; reflexivity.
Qed.

(** Reading [_lut[base][i]] never raises [ValueError], and at an index
    [i >= 1] of a table it raises [TypeError] only for an unhashable base. *)
Lemma lut_lookup_not_value_error base i st : lut_lookup base i st <> inl ValueError.
Proof.
  unfold lut_lookup. destruct base as [b|q|[|]]; try discriminate;
  destruct (key_of _) as [z|]; try discriminate;
  destruct (st !! z) as [t|]; try discriminate;
  destruct (t !! Z.to_nat i) as [[ep|]|]; discriminate.
Qed.

Lemma lut_lookup_type_error st base i :
  reg_inv st -> 1 <= i -> lut_lookup base i st = inl TypeError -> base = BObj false.
Proof.
  intros Hst Hi. unfold lut_lookup.
  destruct base as [b|q|[|]]; [| |discriminate|reflexivity].
  all: destruct (key_of _) as [z|]; try discriminate;
       destruct (st !! z) as [t|] eqn:Ht; try discriminate;
       destruct (t !! Z.to_nat i) as [[ep|]|] eqn:Hti; try discriminate;
       intros _; destruct (Hst z t Ht) as [_ [e (_ & Hent & _)]];
       destruct (Hent (Z.to_nat i) None ltac:(lia) Hti) as (? & ? & [=] & _).
Qed.




(** ** The checkpoint of an index *)

Lemma checkpoint_least_power b i e p :
  2 <= b -> checkpoint_ok b i e p -> least_power_exp b i e.
Proof.
  intros Hb (-> & He & Hi & Hmin). split; [exact He|]. split; [exact Hi|].
  intros k Hk Hik. destruct Hmin as [->|Hmin]; [exact Hk|].
  destruct (Z.le_gt_cases e k) as [|Hlt]; [assumption|].
  pose proof (pow_le_mono b k (e - 1) Hb Hk ltac:(lia)).
  pose proof (bit_length_mono (b ^ k) (b ^ (e - 1)) (pow_pos b k Hb Hk) ltac:(lia)). lia.
Qed.

Lemma least_power_exact b i e :
  2 <= b -> least_power_exp b i e ->
  (exists k, 0 <= k /\ bit_length (b ^ k) = i) -> bit_length (b ^ e) = i.
Proof.
  intros Hb (He & Hi & Hmin) (k & Hk & Hki).
  specialize (Hmin k Hk ltac:(lia)).
  pose proof (pow_le_mono b e k Hb He Hmin).
  pose proof (bit_length_mono (b ^ e) (b ^ k) (pow_pos b e Hb He) ltac:(lia)). lia.
Qed.

Lemma bit_length_pow3 k : 0 <= k -> bit_length (3 ^ k) <> 3.
Proof.
  intros Hk.
  destruct (Z.eq_dec k 0) as [->|H0]; [vm_compute; discriminate|].
  destruct (Z.eq_dec k 1) as [->|H1]; [vm_compute; discriminate|].
  pose proof (pow_le_mono 3 2 k ltac:(lia) ltac:(lia) ltac:(lia)) as H9.
  change (3 ^ 2) with 9 in H9.
  pose proof (bit_length_mono 9 (3 ^ k) ltac:(lia) H9).
  assert (bit_length 9 = 4) by reflexivity. lia.
Qed.

(** C7 (as stated, refuted): no power of 3 has bit length 3, and the
    checkpoint at index 3 of base 3 is [(2, 9)] with [(9).bit_length() = 4];
    a query for [value = 5] (bit length 3) fetches it. *)
Lemma checkpoint_skips_bitlen :
  reachable (run_call (CExtendBitlen 3 (BInt 3)) ∅) /\
  (exists t, run_call (CExtendBitlen 3 (BInt 3)) ∅ !! 3 = Some t /\
             t !! 3%nat = Some (Some (2, 9))) /\
  bit_length 9 = 4 /\ bit_length 5 = 3 /\
  lut_fetch 5 (BInt 3) (run_call (CExtendBitlen 3 (BInt 3)) ∅)
    = inr ((2, 9), run_call (CExtendBitlen 3 (BInt 3)) ∅) /\
  (forall k, 0 <= k -> bit_length (3 ^ k) <> 3).
Proof.
  split; [apply reach_call; exact reach_init|].
  split; [eexists; split; vm_compute; reflexivity|].
  split; [reflexivity|]. split; [reflexivity|].
  split; [vm_compute; reflexivity|]. exact bit_length_pow3.
Qed.

(** C7 (amended): the checkpoint at a populated index [i >= 1] of the table
    of base [b] is [(e, b ** e)] with [b ** e] the least power of [b] whose
    bit length is at least [i]; its bit length is exactly [i] when some power
    of [b] has bit length [i].  The same holds for the checkpoint a query
    fetches for a value of bit length [value.bit_length()]. *)
Theorem checkpoint_minimal_power (st : registry) (b : Z) :
  reachable st -> 2 <= b ->
  (forall t (i : nat) x, st !! b = Some t -> (1 <= i)%nat -> t !! i = Some x ->
     exists e, x = Some (e, b ^ e) /\ least_power_exp b (Z.of_nat i) e /\
       ((exists k, 0 <= k /\ bit_length (b ^ k) = Z.of_nat i) ->
        bit_length (b ^ e) = Z.of_nat i)) /\
  (forall v, 1 <= v ->
     exists e st', lut_fetch v (BInt b) st = inr ((e, b ^ e), st') /\
       least_power_exp b (bit_length v) e /\
       ((exists k, 0 <= k /\ bit_length (b ^ k) = bit_length v) ->
        bit_length (b ^ e) = bit_length v)).
Proof.
  intros Hr Hb. apply reachable_inv in Hr. split.
  - intros t i x Hl Hi Hx.
    destruct (table_entry st b t i x Hr Hl Hi Hx) as (_ & e & -> & Hc).
    pose proof (checkpoint_least_power b _ e _ Hb Hc) as Hlp.
    exists e. split; [reflexivity|]. split; [exact Hlp|].
    apply least_power_exact; assumption.
  - intros v Hv. destruct (lut_fetch_ok st b v Hr Hb Hv) as (e & st' & Hf & _ & Hc).
    pose proof (checkpoint_least_power b _ e _ Hb Hc) as Hlp.
    exists e, st'. split; [exact Hf|]. split; [exact Hlp|].
    apply least_power_exact; assumption.
Qed.

Lemma checkpoint_minimal_power_witness :
  reachable (run_call (CExtendBitlen 4 (BInt 3)) ∅) /\ 2 <= 3 /\
  (forall t (i : nat) x, run_call (CExtendBitlen 4 (BInt 3)) ∅ !! 3 = Some t ->
     (1 <= i)%nat -> t !! i = Some x ->
     exists e, x = Some (e, 3 ^ e) /\ least_power_exp 3 (Z.of_nat i) e /\
       ((exists k, 0 <= k /\ bit_length (3 ^ k) = Z.of_nat i) ->
        bit_length (3 ^ e) = Z.of_nat i)) /\
  (forall v, 1 <= v ->
     exists e st', lut_fetch v (BInt 3) (run_call (CExtendBitlen 4 (BInt 3)) ∅)
                     = inr ((e, 3 ^ e), st') /\
       least_power_exp 3 (bit_length v) e /\
       ((exists k, 0 <= k /\ bit_length (3 ^ k) = bit_length v) ->
        bit_length (3 ^ e) = bit_length v)).
Proof.
  split; [apply reach_call; exact reach_init|]. split; [lia|].
  apply (checkpoint_minimal_power (run_call (CExtendBitlen 4 (BInt 3)) ∅) 3);
    [apply reach_call; exact reach_init|lia].
Defined.

(** ** Tables only grow *)

Lemma grows_refl st : grows st st.
Proof. intros b t H. exists []. rewrite app_nil_r. exact H. Qed.

Lemma grows_trans st1 st2 st3 : grows st1 st2 -> grows st2 st3 -> grows st1 st3.
Proof.
  intros H12 H23 b t H. destruct (H12 b t H) as (e1 & H2).
  destruct (H23 b _ H2) as (e2 & H3). exists (e1 ++ e2). rewrite app_assoc. exact H3.
Qed.

Lemma grows_insert st b t' :
  (forall t, st !! b = Some t -> t `prefix_of` t') -> grows st (<[b := t']> st).
Proof.
  intros Hpre b0 t0 H0. destruct (Z.eq_dec b0 b) as [->|Hne].
  - rewrite lookup_insert_eq. destruct (Hpre t0 H0) as [ext ->]. exists ext. reflexivity.
  - rewrite lookup_insert_ne by congruence. exists []. rewrite app_nil_r. exact H0.
Qed.

Lemma extend_bitlen_grows st L base r st' :
  reg_inv st -> extend_fast_range_to_bitlen L base st = inr (r, st') -> grows st st'.
Proof.
  intros Hst H. destruct base as [b|q|h]; [|discriminate..].
  destruct (Z.leb_spec b 1).
  - unfold extend_fast_range_to_bitlen, bind, _init_base in H.
    destruct (Z.leb_spec b 1); [discriminate|lia].
  - destruct (extend_bitlen_ok st b L Hst ltac:(lia)) as (t' & e' & Hrun & _ & Hpre & _).
    rewrite Hrun in H. injection H as _ <-. apply grows_insert, Hpre.
Qed.

Lemma extend_power_grows st n base r st' :
  reg_inv st -> extend_fast_range_to_power n base st = inr (r, st') -> grows st st'.
Proof.
  intros Hst H. destruct base as [b|q|h]; [|discriminate..].
  destruct (Z.leb_spec b 1).
  - unfold extend_fast_range_to_power, bind, _init_base in H.
    destruct (Z.leb_spec b 1); [discriminate|lia].
  - destruct (extend_power_ok st b n Hst ltac:(lia)) as (t' & e' & Hrun & _ & Hpre).
    rewrite Hrun in H. injection H as _ <-. apply grows_insert, Hpre.
Qed.

Lemma lut_fetch_grows st v base r st' :
  reg_inv st -> lut_fetch v base st = inr (r, st') -> grows st st'.
Proof.
  intros Hst. unfold lut_fetch.
  destruct (lut_lookup base (bit_length v) st) as [[]|[r0 st0]] eqn:E;
    try discriminate; try (apply extend_bitlen_grows; exact Hst).
  intros [= _ <-]. apply lut_lookup_state in E. subst. apply grows_refl.
Qed.

Lemma run_call_grows c st : reg_inv st -> grows st (run_call c st).
Proof.
  intros Hst. destruct c; simpl; unfold after;
  [ destruct (extend_fast_range_to_power _ _ st) as [|[r st']] eqn:E; [apply grows_refl|];
    eapply extend_power_grows; eassumption
  | destruct (extend_fast_range_to_bitlen _ _ st) as [|[r st']] eqn:E; [apply grows_refl|];
    eapply extend_bitlen_grows; eassumption
  | .. ].
  all: unfold gt_log, ge_log, lt_log, le_log, int_log, gt_pow, ge_pow, lt_pow, le_pow,
         int_pow, rounding_lookup, bind.
  all: run_call_cases; simpl; try apply grows_refl; eapply lut_fetch_grows; eassumption.
Qed.

Lemma run_calls_grows cs st : reachable st -> grows st (run_calls cs st).
Proof.
  revert st. induction cs as [|c cs IH]; intros st Hr; simpl.
  - apply grows_refl.
  - eapply grows_trans; [apply run_call_grows, reachable_inv, Hr|].
    apply IH, reach_call, Hr.
Qed.

(** C8: an extension call for base [b >= 2] leaves the table of [b] as a
    prefix of the new one (each checkpoint stays at its index, entries are
    only appended), creates that table if it was missing, and leaves the
    tables of the other bases unchanged; over any sequence of calls every
    table only grows by appending. *)
Theorem extend_append_only (st : registry) (b : Z) :
  reachable st -> 2 <= b ->
  (forall c, extend_call_of b c ->
     (forall t, st !! b = Some t ->
        exists ext, run_call c st !! b = Some (t ++ ext) /\
          forall (i : nat) x, t !! i = Some x -> (t ++ ext) !! i = Some x) /\
     (exists t', run_call c st !! b = Some t') /\
     (forall b', b' <> b -> run_call c st !! b' = st !! b')) /\
  (forall cs t, st !! b = Some t ->
     exists ext, run_calls cs st !! b = Some (t ++ ext)).
Proof.
  intros Hr Hb. pose proof (reachable_inv st Hr) as Hst. split.
  - intros c (n & Hc).
    assert (Hrun : exists t', run_call c st = <[b := t']> st /\
                              forall t, st !! b = Some t -> t `prefix_of` t').
    { destruct Hc as [-> | ->]; simpl; unfold after.
      - destruct (extend_power_ok st b n Hst Hb) as (t' & e' & E & _ & Hpre).
        rewrite E. eauto.
      - destruct (extend_bitlen_ok st b n Hst Hb) as (t' & e' & E & _ & Hpre & _).
        rewrite E. eauto. }
    destruct Hrun as (t' & -> & Hpre). split; [|split].
    + intros t Ht. destruct (Hpre t Ht) as [ext ->]. exists ext.
      split; [apply lookup_insert_eq|].
      intros i x Hx. rewrite lookup_app_l; [exact Hx|]. apply lookup_lt_Some in Hx. exact Hx.
    + exists t'. apply lookup_insert_eq.
    + intros b' Hne. apply lookup_insert_ne. congruence.
  - intros cs t Ht. exact (run_calls_grows cs st Hr b t Ht).
Qed.

Lemma extend_append_only_witness :
  reachable (run_call (CExtendBitlen 2 (BInt 3)) ∅) /\ 2 <= 3 /\
  (forall c, extend_call_of 3 c ->
     (forall t, run_call (CExtendBitlen 2 (BInt 3)) ∅ !! 3 = Some t ->
        exists ext, run_call c (run_call (CExtendBitlen 2 (BInt 3)) ∅) !! 3 = Some (t ++ ext) /\
          forall (i : nat) x, t !! i = Some x -> (t ++ ext) !! i = Some x) /\
     (exists t', run_call c (run_call (CExtendBitlen 2 (BInt 3)) ∅) !! 3 = Some t') /\
     (forall b', b' <> 3 ->
        run_call c (run_call (CExtendBitlen 2 (BInt 3)) ∅) !! b'
          = run_call (CExtendBitlen 2 (BInt 3)) ∅ !! b')) /\
  (forall cs t, run_call (CExtendBitlen 2 (BInt 3)) ∅ !! 3 = Some t ->
     exists ext, run_calls cs (run_call (CExtendBitlen 2 (BInt 3)) ∅) !! 3 = Some (t ++ ext)).
Proof.
  split; [apply reach_call; exact reach_init|]. split; [lia|].
  apply (extend_append_only (run_call (CExtendBitlen 2 (BInt 3)) ∅) 3);
    [apply reach_call; exact reach_init|lia].
Defined.

(** ** The rounding dispatchers *)

(** C9: called with any key of [_ROUNDING] naming a mode (its tag, its
    [operator] function or its symbols), each dispatcher returns exactly
    what the function named after that mode returns, for every value, base
    and table state. *)
Theorem dispatch_aliases (st : registry) (v : Z) (base : PyBase) (b : Z) (m : mode) :
  Forall (fun k =>
    int_log v base k st = auto_log m v base st /\
    int_pow v base k st = auto_pow m v base st /\
    fast_int_log v base k st = fast_log m v base st /\
    fast_int_pow v base k st = fast_pow m v base st /\
    slow_int_log v b k = slow_log m v b /\
    slow_int_pow v b k = slow_pow m v b) (aliases m).
Proof.
  apply Forall_forall. intros k Hk. apply list_elem_of_In in Hk.
  pose proof (rounding_get_alias m k Hk) as Hg.
  unfold int_log, int_pow, fast_int_log, fast_int_pow, slow_int_log, slow_int_pow,
    rounding_lookup.
  rewrite Hg. destruct m; simpl auto_log; simpl auto_pow; simpl fast_log; simpl fast_pow;
    simpl slow_log; simpl slow_pow; repeat split.
  all: unfold slow_gt_log, slow_ge_log; rewrite Z.sub_0_r; reflexivity.
Qed.

(** ** The table invariant *)

(** C10: in every reachable state (the empty [_lut] at import, then any
    sequence of calls: the seed [[None, (0, 1)]] starts each table and every
    call keeps the invariant), the table of a base [b] has [b >= 2], the
    sentinel at index 0, the seed [(0, 1)] at index 1, and at every index
    [1 <= i < len(limits)] a pair [(e, b ** e)] where [b ** e] is the least
    power of [b] with bit length at least [i].  For a value whose bit length
    is covered, the fetched checkpoint [(e, p)] satisfies
    [b ** (e - 1) < value < p * b], so one comparison with [p] decides
    every rounding. *)
Theorem table_invariant (st : registry) (b : Z) (t : table) :
  reachable st -> st !! b = Some t ->
  2 <= b /\
  t !! 0%nat = Some None /\
  t !! 1%nat = Some (Some (0, 1)) /\
  (forall i : nat, (1 <= i < length t)%nat ->
     exists e, t !! i = Some (Some (e, b ^ e)) /\ least_power_exp b (Z.of_nat i) e) /\
  (forall v, 1 <= v -> bit_length v < Z.of_nat (length t) ->
     exists e, t !! Z.to_nat (bit_length v) = Some (Some (e, b ^ e)) /\
       (1 <= e -> b ^ (e - 1) < v) /\ v < b ^ e * b).
Proof.
  intros Hr Hl. pose proof (reachable_inv st Hr) as Hst.
  destruct (Hst b t Hl) as [Hb [e0 (H0 & _ & Hlen & _ & He0)]].
  pose proof (bit_length_ge1 (b ^ e0) (pow_pos b e0 Hb He0)).
  split; [exact Hb|]. split; [exact H0|]. split; [|split].
  - destruct (table_entry_at st b t 1 Hst Hl ltac:(lia)) as (e & Hx & _ & He & _ & Hmin).
    assert (e = 0) as ->.
    { destruct Hmin as [|Hmin]; [assumption|].
      destruct (Z.eq_dec e 0) as [|Hne]; [assumption|].
      pose proof (bit_length_ge1 (b ^ (e - 1)) (pow_pos b (e - 1) Hb ltac:(lia))). lia. }
    exact Hx.
  - intros i Hi. destruct (table_entry_at st b t i Hst Hl Hi) as (e & Hx & Hc).
    exists e. split; [exact Hx|]. apply (checkpoint_least_power b _ e _ Hb Hc).
  - intros v Hv HL. pose proof (bit_length_ge1 v Hv).
    destruct (table_entry_at st b t (Z.to_nat (bit_length v)) Hst Hl ltac:(lia)) as (e & Hx & Hc).
    rewrite Z2Nat.id in Hc by lia.
    destruct (checkpoint_bounds b v e Hb Hv Hc) as (Hlo & Hhi & _).
    exists e. split; [exact Hx|]. split; assumption.
Qed.

Lemma table_invariant_witness :
  exists t,
  reachable (run_call (CExtendBitlen 4 (BInt 3)) ∅) /\
  run_call (CExtendBitlen 4 (BInt 3)) ∅ !! 3 = Some t /\
  2 <= 3 /\
  t !! 0%nat = Some None /\
  t !! 1%nat = Some (Some (0, 1)) /\
  (forall i : nat, (1 <= i < length t)%nat ->
     exists e, t !! i = Some (Some (e, 3 ^ e)) /\ least_power_exp 3 (Z.of_nat i) e) /\
  (forall v, 1 <= v -> bit_length v < Z.of_nat (length t) ->
     exists e, t !! Z.to_nat (bit_length v) = Some (Some (e, 3 ^ e)) /\
       (1 <= e -> 3 ^ (e - 1) < v) /\ v < 3 ^ e * 3).
Proof.
  eexists. split; [apply reach_call; exact reach_init|].
  split; [vm_compute; reflexivity|].
  apply (table_invariant (run_call (CExtendBitlen 4 (BInt 3)) ∅) 3);
    [apply reach_call; exact reach_init|vm_compute; reflexivity].
Defined.

(** * Further properties of the module *)

(** ** Extension calls: results, reach, and calls that change nothing *)

Lemma power_loop_exp b n : forall t e p t' e' p',
  power_loop n b t e p = (t', e', p') -> e' = e + Z.of_nat n.
Proof.
  induction n as [|n IH]; intros t e p t' e' p' H; cbn [power_loop] in H.
  - injection H as _ <- _. lia.
  - apply IH in H. lia.
Qed.

Lemma extend_bitlen_reach st b L : reg_inv st -> 2 <= b ->
  exists t' e, extend_fast_range_to_bitlen L (BInt b) st = inr ((e, b ^ e), <[b := t']> st) /\
    tinv b t' e /\ L < Z.of_nat (length t') /\
    (forall t, st !! b = Some t -> t `prefix_of` t') /\
    ((forall t, st !! b = Some t -> Z.of_nat (length t) - 1 <= L) -> 1 <= L ->
     checkpoint_ok b L e (b ^ e)).
Proof.
  intros Hst Hb.
  destruct (extend_bitlen_ok st b L Hst Hb) as (t' & e & Hrun & Ht' & Hpre & Hck).
  exists t', e. split; [exact Hrun|]. split; [exact Ht'|]. split; [|split; assumption].
  pose proof Ht' as (_ & _ & Hlen & _ & He).
  pose proof (bit_length_ge1 (b ^ e) (pow_pos b e Hb He)).
  destruct (st !! b) as [t|] eqn:Hl.
  - destruct (Z.le_gt_cases (Z.of_nat (length t) - 1) L) as [Hle|Hgt].
    + destruct (Z.le_gt_cases 1 L) as [H1|H1]; [|lia].
      assert (Hc : checkpoint_ok b L e (b ^ e)).
      { apply Hck; [|exact H1]. intros t0 Ht0. injection Ht0 as <-. exact Hle. }
      destruct Hc as (_ & _ & Hc & _). lia.
    + pose proof (prefix_length _ _ (Hpre t eq_refl)). lia.
  - destruct (Z.le_gt_cases 1 L) as [H1|H1]; [|lia].
    assert (Hc : checkpoint_ok b L e (b ^ e)).
    { apply Hck; [|exact H1]. intros t0 Ht0. discriminate. }
    destruct Hc as (_ & _ & Hc & _). lia.
Qed.

Lemma extend_bitlen_noop st b t L : reg_inv st -> st !! b = Some t ->
  L < Z.of_nat (length t) ->
  exists e, last t = Some (Some (e, b ^ e)) /\
    extend_fast_range_to_bitlen L (BInt b) st = inr ((e, b ^ e), st).
Proof.
  intros Hst Hl HL. destruct (Hst b t Hl) as [Hb _].
  destruct (init_base_ok st b Hst Hb) as (t0 & e & Hinit & Ht & Hwhich).
  assert (t0 = t) as ->.
  { destruct Hwhich as [H|[H _]]; rewrite Hl in H; [injection H as ->; reflexivity|discriminate]. }
  pose proof Ht as (_ & _ & Hlen & Hlast & _).
  exists e. split; [exact Hlast|].
  unfold extend_fast_range_to_bitlen, bind. rewrite Hinit.
  rewrite bitlen_loop_stop by lia.
  rewrite insert_insert_eq, (insert_id st b t Hl). reflexivity.
Qed.

Lemma extend_power_noop st b t e n : reg_inv st -> st !! b = Some t -> tinv b t e ->
  n <= e -> extend_fast_range_to_power n (BInt b) st = inr ((e, b ^ e), st).
Proof.
  intros Hst Hl Ht Hn. destruct (Hst b t Hl) as [Hb [e1 Ht1]].
  destruct (init_base_ok st b Hst Hb) as (t0 & e0 & Hinit & Ht0 & Hwhich).
  assert (t0 = t) as ->.
  { destruct Hwhich as [H|[H _]]; rewrite Hl in H; [injection H as ->; reflexivity|discriminate]. }
  assert (e0 = e) as ->.
  { destruct Ht0 as (_ & _ & _ & L0 & _). destruct Ht as (_ & _ & _ & L1 & _).
    rewrite L0 in L1. congruence. }
  unfold extend_fast_range_to_power, bind. rewrite Hinit.
  replace (Z.to_nat (n - e)) with O by lia. cbn [power_loop].
  rewrite insert_insert_eq, (insert_id st b t Hl). reflexivity.
Qed.

(** X1: [extend_fast_range_to_bitlen(max_bitlen, base)] for [base >= 2]
    returns the last checkpoint [(e, base ** e)] of the table it leaves,
    which then reaches past index [max_bitlen] (so the [fast_*] functions
    accept every value of bit length up to [max_bitlen]).  When the old
    table did not already reach past [max_bitlen], [base ** e] is the least
    power whose bit length is at least [max_bitlen]: the loop stops at the
    first power that gets there.  Otherwise the table and [_lut] are left
    as they were. *)
Theorem extend_bitlen_result (st : registry) (b L : Z) :
  reachable st -> 2 <= b ->
  exists t' e,
    extend_fast_range_to_bitlen L (BInt b) st = inr ((e, b ^ e), <[b := t']> st) /\
    last t' = Some (Some (e, b ^ e)) /\
    Z.of_nat (length t') = bit_length (b ^ e) + 1 /\
    L < Z.of_nat (length t') /\
    (1 <= L -> (forall t, st !! b = Some t -> Z.of_nat (length t) <= L + 1) ->
     least_power_exp b L e) /\
    (forall t, st !! b = Some t -> L < Z.of_nat (length t) ->
     t' = t /\ <[b := t']> st = st).
Proof.
  intros Hr Hb. pose proof (reachable_inv st Hr) as Hst.
  destruct (extend_bitlen_reach st b L Hst Hb) as (t' & e & Hrun & Ht' & HL & Hpre & Hck).
  pose proof Ht' as (_ & _ & Hlen & Hlast & _).
  exists t', e. split; [exact Hrun|]. split; [exact Hlast|]. split; [exact Hlen|].
  split; [exact HL|]. split.
  - intros H1 Hold. apply (checkpoint_least_power b L e (b ^ e) Hb).
    apply Hck; [|exact H1]. intros t Ht. specialize (Hold t Ht). lia.
  - intros t Ht Hcov.
    destruct (extend_bitlen_noop st b t L Hst Ht Hcov) as (e0 & _ & Hrun0).
    rewrite Hrun0 in Hrun. injection Hrun as _ _ Hins.
    split; [|symmetry; exact Hins].
    assert (H := f_equal (lookup b) Hins). rewrite lookup_insert_eq, Ht in H.
    injection H as ->. reflexivity.
Qed.

Lemma extend_bitlen_result_witness :
  reachable ∅ /\ 2 <= 3 /\
  exists t' e,
    extend_fast_range_to_bitlen 5 (BInt 3) ∅ = inr ((e, 3 ^ e), <[3 := t']> ∅) /\
    last t' = Some (Some (e, 3 ^ e)) /\
    Z.of_nat (length t') = bit_length (3 ^ e) + 1 /\
    5 < Z.of_nat (length t') /\
    (1 <= 5 -> (forall t, (∅ : registry) !! 3 = Some t -> Z.of_nat (length t) <= 5 + 1) ->
     least_power_exp 3 5 e) /\
    (forall t, (∅ : registry) !! 3 = Some t -> 5 < Z.of_nat (length t) ->
     t' = t /\ <[3 := t']> (∅ : registry) = ∅).
Proof.
  split; [exact reach_init|]. split; [lia|].
  apply (extend_bitlen_result ∅ 3 5); [exact reach_init|lia].
Defined.

(** X2: [extend_fast_range_to_power(max_exponent, base)] for [base >= 2]
    returns [(max(max_exponent, e0), base ** max(max_exponent, e0))], where
    [e0] is the exponent of the last checkpoint of the table before the call
    (0 for a new table), leaves that pair as the last checkpoint, and
    afterwards every value [1 <= v <= base ** max_exponent] is covered by
    the table. *)
Theorem extend_power_result (st : registry) (b n : Z) :
  reachable st -> 2 <= b ->
  exists t' e0,
    ((st !! b = None /\ e0 = 0) \/
     (exists t, st !! b = Some t /\ last t = Some (Some (e0, b ^ e0)))) /\
    extend_fast_range_to_power n (BInt b) st
      = inr ((Z.max n e0, b ^ Z.max n e0), <[b := t']> st) /\
    last t' = Some (Some (Z.max n e0, b ^ Z.max n e0)) /\
    (forall v, 1 <= v <= b ^ n -> bit_length v < Z.of_nat (length t')).
Proof.
  intros Hr Hb. pose proof (reachable_inv st Hr) as Hst.
  destruct (init_base_ok st b Hst Hb) as (t & e0 & Hinit & Ht & Hwhich).
  pose proof Ht as (_ & _ & _ & Hlast0 & He0).
  unfold extend_fast_range_to_power, bind. rewrite Hinit.
  destruct (power_loop _ b t e0 (b ^ e0)) as [[t' e'] p'] eqn:Hrun.
  pose proof (power_loop_exp b _ _ _ _ _ _ _ Hrun) as He'.
  destruct (power_loop_tinv b _ Hb t e0 t' e' p' Ht Hrun) as (Ht' & -> & _).
  assert (e' = Z.max n e0) as -> by lia.
  pose proof Ht' as (_ & _ & Hlen & Hlast & _).
  exists t', e0. split; [|split; [|split]].
  - destruct Hwhich as [H|[H ->]]; [right; exists t; split; assumption|left; split; [exact H|]].
    simpl in Hlast0. injection Hlast0 as <- _. reflexivity.
  - rewrite insert_insert_eq. reflexivity.
  - exact Hlast.
  - intros v Hv. destruct (Z.le_gt_cases 0 n) as [Hn|Hn].
    + pose proof (pow_le_mono b n (Z.max n e0) Hb Hn ltac:(lia)).
      pose proof (bit_length_mono v (b ^ Z.max n e0) ltac:(lia) ltac:(lia)). lia.
    + rewrite Z.pow_neg_r in Hv by lia. lia.
Qed.

Lemma extend_power_result_witness :
  reachable (run_call (CExtendPower 4 (BInt 2)) ∅) /\ 2 <= 2 /\
  exists t' e0,
    ((run_call (CExtendPower 4 (BInt 2)) ∅ !! 2 = None /\ e0 = 0) \/
     (exists t, run_call (CExtendPower 4 (BInt 2)) ∅ !! 2 = Some t /\
                last t = Some (Some (e0, 2 ^ e0)))) /\
    extend_fast_range_to_power 2 (BInt 2) (run_call (CExtendPower 4 (BInt 2)) ∅)
      = inr ((Z.max 2 e0, 2 ^ Z.max 2 e0), <[2 := t']> (run_call (CExtendPower 4 (BInt 2)) ∅)) /\
    last t' = Some (Some (Z.max 2 e0, 2 ^ Z.max 2 e0)) /\
    (forall v, 1 <= v <= 2 ^ 2 -> bit_length v < Z.of_nat (length t')).
Proof.
  split; [apply reach_call; exact reach_init|]. split; [lia|].
  apply (extend_power_result (run_call (CExtendPower 4 (BInt 2)) ∅) 2 2);
    [apply reach_call; exact reach_init|lia].
Defined.

(** X3: each extension call is idempotent: calling it a second time with the
    same arguments returns the same pair and leaves [_lut] as the first call
    left it. *)
Theorem extend_idempotent (st : registry) (b n : Z) :
  reachable st -> 2 <= b ->
  extend_fast_range_to_bitlen n (BInt b) (run_call (CExtendBitlen n (BInt b)) st)
    = extend_fast_range_to_bitlen n (BInt b) st /\
  extend_fast_range_to_power n (BInt b) (run_call (CExtendPower n (BInt b)) st)
    = extend_fast_range_to_power n (BInt b) st.
Proof.
  intros Hr Hb. pose proof (reachable_inv st Hr) as Hst. split.
  - destruct (extend_bitlen_reach st b n Hst Hb) as (t' & e & Hrun & Ht' & HL & _).
    assert (Hst1 : reg_inv (<[b := t']> st)) by (eapply reg_inv_insert; eauto).
    simpl. unfold after. rewrite Hrun.
    destruct (extend_bitlen_noop (<[b := t']> st) b t' n Hst1 (lookup_insert_eq _ _ _) HL)
      as (e1 & Hl1 & Hrun1).
    rewrite Hrun1. destruct Ht' as (_ & _ & _ & Hlast & _). rewrite Hl1 in Hlast.
    injection Hlast as ->. reflexivity.
  - destruct (extend_power_ok st b n Hst Hb) as (t' & e & Hrun & Ht' & _).
    assert (Hst1 : reg_inv (<[b := t']> st)) by (eapply reg_inv_insert; eauto).
    simpl. unfold after. rewrite Hrun.
    assert (Hn : n <= e).
    { unfold extend_fast_range_to_power, bind in Hrun.
      destruct (init_base_ok st b Hst Hb) as (t0 & e0 & Hinit & Ht0 & _).
      rewrite Hinit in Hrun.
      destruct (power_loop _ b t0 e0 (b ^ e0)) as [[t1 e1] p1] eqn:Hl.
      pose proof (power_loop_exp b _ _ _ _ _ _ _ Hl).
      injection Hrun as <- _ _. pose proof Ht0 as (_ & _ & _ & _ & ?). lia. }
    rewrite (extend_power_noop (<[b := t']> st) b t' e n Hst1 (lookup_insert_eq _ _ _) Ht' Hn).
    reflexivity.
Qed.

Lemma extend_idempotent_witness :
  reachable ∅ /\ 2 <= 3 /\
  extend_fast_range_to_bitlen 6 (BInt 3) (run_call (CExtendBitlen 6 (BInt 3)) ∅)
    = extend_fast_range_to_bitlen 6 (BInt 3) ∅ /\
  extend_fast_range_to_power 6 (BInt 3) (run_call (CExtendPower 6 (BInt 3)) ∅)
    = extend_fast_range_to_power 6 (BInt 3) ∅.
Proof.
  split; [exact reach_init|]. split; [lia|].
  apply (extend_idempotent ∅ 3 6); [exact reach_init|lia].
Defined.

(** ** The table is a cache: what a query leaves behind *)

Lemma lut_fetch_covers st b v x st' : reg_inv st -> 2 <= b -> 1 <= v ->
  lut_fetch v (BInt b) st = inr (x, st') -> covers st' b v.
Proof.
  intros Hst Hb Hv. unfold lut_fetch.
  destruct (lut_lookup (BInt b) (bit_length v) st) as [[]|[ep st0]] eqn:E; try discriminate.
  - destruct (extend_bitlen_reach st b (bit_length v) Hst Hb) as (t' & e & Hrun & _ & HL & _).
    rewrite Hrun. intros [= _ <-]. exists t'. split; [apply lookup_insert_eq|exact HL].
  - destruct (extend_bitlen_reach st b (bit_length v) Hst Hb) as (t' & e & Hrun & _ & HL & _).
    rewrite Hrun. intros [= _ <-]. exists t'. split; [apply lookup_insert_eq|exact HL].
  - intros [= _ <-]. unfold lut_lookup in E. simpl in E.
    destruct (st !! b) as [t|] eqn:Hl; [|discriminate].
    destruct (t !! Z.to_nat (bit_length v)) as [[ep'|]|] eqn:Hi; try discriminate.
    injection E as _ <-. exists t. split; [exact Hl|].
    apply lookup_lt_Some in Hi. pose proof (bit_length_ge1 v Hv). lia.
Qed.

Lemma pow_le_inv b i j : 2 <= b -> 0 <= i -> 0 <= j -> b ^ i <= b ^ j -> i <= j.
Proof.
  intros Hb Hi Hj H. destruct (Z.le_gt_cases i j) as [|Hlt]; [assumption|].
  pose proof (pow_lt_mono b j i Hb Hj Hlt). lia.
Qed.

Lemma pow_lt_inv b i j : 2 <= b -> 0 <= i -> 0 <= j -> b ^ i < b ^ j -> i < j.
Proof.
  intros Hb Hi Hj H. destruct (Z.le_gt_cases j i) as [Hle|]; [|assumption].
  pose proof (pow_le_mono b j i Hb Hj Hle). lia.
Qed.

(** X4: the answers of the auto-extending functions do not depend on what
    the table holds: from any two reachable states of [_lut], each of the
    eight functions returns the same number for the same value and base. *)
Theorem query_state_independent (st1 st2 : registry) (b v : Z) (m : mode) :
  reachable st1 -> reachable st2 -> 2 <= b -> 1 <= v ->
  (exists r st1' st2', auto_log m v (BInt b) st1 = inr (r, st1') /\
                       auto_log m v (BInt b) st2 = inr (r, st2')) /\
  (exists r st1' st2', auto_pow m v (BInt b) st1 = inr (r, st1') /\
                       auto_pow m v (BInt b) st2 = inr (r, st2')).
Proof.
  intros H1 H2 Hb Hv.
  destruct (auto_results st1 b v (reachable_inv _ H1) Hb Hv)
    as (kle & klt & s1 & Hle & Hlt & _ & A1 & A2 & A3 & A4 & A5 & A6 & A7 & A8).
  destruct (auto_results st2 b v (reachable_inv _ H2) Hb Hv)
    as (kle' & klt' & s2 & Hle' & Hlt' & _ & B1 & B2 & B3 & B4 & B5 & B6 & B7 & B8).
  rewrite <- (least_exp_unique op_le b v kle kle' ltac:(left; reflexivity) Hb Hle Hle') in *.
  rewrite <- (least_exp_unique op_lt b v klt klt' ltac:(right; reflexivity) Hb Hlt Hlt') in *.
  destruct m; simpl; split; do 3 eexists; split; eassumption.
Qed.

Lemma query_state_independent_witness :
  reachable ∅ /\ reachable (run_call (CExtendBitlen 8 (BInt 3)) ∅) /\ 2 <= 3 /\ 1 <= 100 /\
  (exists r st1' st2', auto_log Lt 100 (BInt 3) ∅ = inr (r, st1') /\
     auto_log Lt 100 (BInt 3) (run_call (CExtendBitlen 8 (BInt 3)) ∅) = inr (r, st2')) /\
  (exists r st1' st2', auto_pow Lt 100 (BInt 3) ∅ = inr (r, st1') /\
     auto_pow Lt 100 (BInt 3) (run_call (CExtendBitlen 8 (BInt 3)) ∅) = inr (r, st2')).
Proof.
  split; [exact reach_init|]. split; [apply reach_call; exact reach_init|].
  split; [lia|]. split; [lia|].
  apply (query_state_independent ∅ (run_call (CExtendBitlen 8 (BInt 3)) ∅) 3 100 Lt);
    [exact reach_init|apply reach_call; exact reach_init|lia|lia].
Defined.

Lemma auto_query_fetch st b v : reg_inv st -> 2 <= b -> 1 <= v ->
  exists st', reg_inv st' /\ covers st' b v /\ forall m,
    (exists r, auto_log m v (BInt b) st = inr (r, st')) /\
    (exists r, auto_pow m v (BInt b) st = inr (r, st')).
Proof.
  intros Hst Hb Hv.
  destruct (queries_ok st b v Hst Hb Hv)
    as (e & st' & _ & Hst' & Hf & H1 & H2 & H3 & H4 & H5 & H6 & H7 & H8).
  exists st'. split; [exact Hst'|]. split; [eapply (lut_fetch_covers st); eassumption|].
  intros m; destruct m; simpl; split; eexists; eassumption.
Qed.

(** X5: after an auto-extending query for [value] succeeds, the table covers
    [value]: the [fast_*] function of the same mode then returns the same
    answer for [value] and leaves [_lut] unchanged. *)
Theorem auto_then_fast (st : registry) (b v : Z) (m : mode) :
  reachable st -> 2 <= b -> 1 <= v ->
  (forall r st', auto_log m v (BInt b) st = inr (r, st') ->
     covers st' b v /\ fast_log m v (BInt b) st' = inr (r, st')) /\
  (forall r st', auto_pow m v (BInt b) st = inr (r, st') ->
     covers st' b v /\ fast_pow m v (BInt b) st' = inr (r, st')).
Proof.
  intros Hr Hb Hv. pose proof (reachable_inv st Hr) as Hst.
  destruct (auto_query_fetch st b v Hst Hb Hv) as (s & Hs & Hcov & Hq).
  destruct (auto_results st b v Hst Hb Hv)
    as (kle & klt & s' & Hle & Hlt & _ & A1 & A2 & A3 & A4 & A5 & A6 & A7 & A8).
  assert (s' = s) as ->.
  { destruct (Hq Gt) as [[r Hg] _]. simpl in Hg. rewrite A1 in Hg. congruence. }
  destruct (fast_results s b v Hs Hb Hv Hcov)
    as (kle' & klt' & Hle' & Hlt' & F1 & F2 & F3 & F4 & F5 & F6 & F7 & F8).
  rewrite <- (least_exp_unique op_le b v kle kle' ltac:(left; reflexivity) Hb Hle Hle') in *.
  rewrite <- (least_exp_unique op_lt b v klt klt' ltac:(right; reflexivity) Hb Hlt Hlt') in *.
  split; intros r st' H; destruct m; simpl in H |- *;
    rewrite ?A1, ?A2, ?A3, ?A4, ?A5, ?A6, ?A7, ?A8 in H; injection H as <- <-;
    (split; [exact Hcov|assumption]).
Qed.

Lemma auto_then_fast_witness :
  reachable ∅ /\ 2 <= 10 /\ 1 <= 12345 /\
  (forall r st', auto_log Ge 12345 (BInt 10) ∅ = inr (r, st') ->
     covers st' 10 12345 /\ fast_log Ge 12345 (BInt 10) st' = inr (r, st')) /\
  (forall r st', auto_pow Ge 12345 (BInt 10) ∅ = inr (r, st') ->
     covers st' 10 12345 /\ fast_pow Ge 12345 (BInt 10) st' = inr (r, st')).
Proof.
  split; [exact reach_init|]. split; [lia|]. split; [lia|].
  apply (auto_then_fast ∅ 10 12345 Ge); [exact reach_init|lia|lia].
Defined.

Lemma after_check {A} v (k : unit -> M A) st :
  1 <= v -> after (bind (check_value v) k) st = after (k tt) st.
Proof. intros Hv. unfold after. rewrite bind_check by exact Hv. reflexivity. Qed.

Lemma after_bind_ret {A B} (m : M A) (f : A -> B) st :
  after (bind m (fun x => ret (f x))) st = after m st.
Proof. unfold after, bind, ret. destruct (m st) as [|[? ?]]; reflexivity. Qed.

Lemma after_ret_bind {A B} (x : A) (g : A -> M B) st :
  after (bind (ret x) g) st = after (g x) st.
Proof. reflexivity. Qed.

Lemma lut_lookup_hit st base v ep st' : reg_inv st -> 1 <= v ->
  lut_lookup base (bit_length v) st = inr (ep, st') ->
  st' = st /\ after (extend_fast_range_to_bitlen (bit_length v) base) st = st.
Proof.
  intros Hst Hv H. pose proof (lut_lookup_state _ _ _ _ _ H) as ->. split; [reflexivity|].
  destruct base as [z|q|h]; [|reflexivity..].
  unfold lut_lookup in H. simpl in H.
  destruct (st !! z) as [t|] eqn:Hl; [|discriminate].
  destruct (t !! Z.to_nat (bit_length v)) as [[ep'|]|] eqn:Hi; try discriminate.
  apply lookup_lt_Some in Hi. pose proof (bit_length_ge1 v Hv).
  destruct (extend_bitlen_noop st z t (bit_length v) Hst Hl ltac:(lia)) as (e & _ & Hrun).
  unfold after. rewrite Hrun. reflexivity.
Qed.

Lemma fetch_after st base v : reg_inv st -> 1 <= v ->
  after (lut_fetch v base) st = after (extend_fast_range_to_bitlen (bit_length v) base) st.
Proof.
  intros Hst Hv. pose proof (bit_length_ge1 v Hv) as HL.
  unfold after at 1, lut_fetch.
  destruct (lut_lookup base (bit_length v) st) as [[]|[ep st']] eqn:E; try reflexivity.
  - exfalso. exact (lut_lookup_not_value_error _ _ _ E).
  - rewrite (lut_lookup_type_error st base (bit_length v) Hst HL E). reflexivity.
  - destruct (lut_lookup_hit st base v ep st' Hst Hv E) as [-> ->]. reflexivity.
Qed.

(** X6: for [value >= 1], each auto-extending query changes [_lut] exactly as
    [extend_fast_range_to_bitlen(value.bit_length(), base)] would: it
    leaves [_lut] unchanged when the table already covers [value] (or the
    base is rejected), and otherwise extends the table of [base] to
    [value.bit_length()].  This holds for every base, valid or not. *)
Theorem query_effect (st : registry) (base : PyBase) (v : Z) (m : mode) :
  reachable st -> 1 <= v ->
  after (auto_log m v base) st = run_call (CExtendBitlen (bit_length v) base) st /\
  after (auto_pow m v base) st = run_call (CExtendBitlen (bit_length v) base) st /\
  (forall k, In k (aliases m) ->
     after (int_log v base k) st = run_call (CExtendBitlen (bit_length v) base) st /\
     after (int_pow v base k) st = run_call (CExtendBitlen (bit_length v) base) st).
Proof.
  intros Hr Hv. pose proof (reachable_inv st Hr) as Hst.
  pose proof (fetch_after st base v Hst Hv) as Hf. simpl run_call. split; [|split].
  - destruct m; simpl; unfold gt_log, ge_log, lt_log, le_log;
      rewrite after_check by exact Hv; rewrite after_bind_ret; exact Hf.
  - destruct m; simpl; unfold gt_pow, ge_pow, lt_pow, le_pow;
      rewrite after_check by exact Hv; rewrite after_bind_ret; exact Hf.
  - intros k Hk. destruct (rounding_lookup_alias m k Hk) as (r & Hrl & _).
    unfold int_log, int_pow. rewrite !after_check by exact Hv. rewrite Hrl.
    rewrite !after_ret_bind. destruct r as [[[[? ?] ?] ?] ?]. cbv beta iota.
    split; rewrite after_bind_ret; exact Hf.
Qed.

Lemma query_effect_witness :
  reachable (run_call (CExtendBitlen 3 (BInt 5)) ∅) /\ 1 <= 1000 /\
  after (auto_log Le 1000 (BInt 5)) (run_call (CExtendBitlen 3 (BInt 5)) ∅)
    = run_call (CExtendBitlen (bit_length 1000) (BInt 5)) (run_call (CExtendBitlen 3 (BInt 5)) ∅) /\
  after (auto_pow Le 1000 (BInt 5)) (run_call (CExtendBitlen 3 (BInt 5)) ∅)
    = run_call (CExtendBitlen (bit_length 1000) (BInt 5)) (run_call (CExtendBitlen 3 (BInt 5)) ∅) /\
  (forall k, In k (aliases Le) ->
     after (int_log 1000 (BInt 5) k) (run_call (CExtendBitlen 3 (BInt 5)) ∅)
       = run_call (CExtendBitlen (bit_length 1000) (BInt 5)) (run_call (CExtendBitlen 3 (BInt 5)) ∅) /\
     after (int_pow 1000 (BInt 5) k) (run_call (CExtendBitlen 3 (BInt 5)) ∅)
       = run_call (CExtendBitlen (bit_length 1000) (BInt 5)) (run_call (CExtendBitlen 3 (BInt 5)) ∅)).
Proof.
  split; [apply reach_call; exact reach_init|]. split; [lia|].
  apply (query_effect (run_call (CExtendBitlen 3 (BInt 5)) ∅) (BInt 5) 1000 Le);
    [apply reach_call; exact reach_init|lia].
Defined.

(** ** Errors of the pre-extended functions *)

Lemma bind_lookup_state {B} base i (f : Z * Z -> B) st r st' :
  bind (lut_lookup base i) (fun ep => ret (f ep)) st = inr (r, st') -> st' = st.
Proof.
  unfold bind. destruct (lut_lookup base i st) as [|[ep s]] eqn:E; [discriminate|].
  unfold ret. intros [= _ <-]. exact (lut_lookup_state _ _ _ _ _ E).
Qed.

(** X7: the [fast_*] functions ([fast_int_log] and [fast_int_pow] with a
    key of [_ROUNDING]) never extend the table and never change [_lut];
    for an unhashable base they raise [TypeError], for a hashable base
    without a table they raise [KeyError], for a value whose bit length is
    not below the table's length they raise [IndexError], and for
    [value = 0] they read the [None] entry at index 0, whose unpacking
    raises [TypeError]. *)
Theorem fast_errors (st : registry) (base : PyBase) (v : Z) (m : mode) :
  reachable st ->
  (base = BObj false ->
     fast_log m v base st = inl TypeError /\ fast_pow m v base st = inl TypeError /\
     forall k, In k (aliases m) ->
       fast_int_log v base k st = inl TypeError /\ fast_int_pow v base k st = inl TypeError) /\
  (base <> BObj false -> (forall k, key_of base = Some k -> st !! k = None) ->
     fast_log m v base st = inl KeyError /\ fast_pow m v base st = inl KeyError /\
     forall k, In k (aliases m) ->
       fast_int_log v base k st = inl KeyError /\ fast_int_pow v base k st = inl KeyError) /\
  (forall k t, key_of base = Some k -> st !! k = Some t ->
     Z.of_nat (length t) <= bit_length v ->
     fast_log m v base st = inl IndexError /\ fast_pow m v base st = inl IndexError /\
     forall k, In k (aliases m) ->
       fast_int_log v base k st = inl IndexError /\ fast_int_pow v base k st = inl IndexError) /\
  (forall k t, key_of base = Some k -> st !! k = Some t ->
     fast_log m 0 base st = inl TypeError /\ fast_pow m 0 base st = inl TypeError /\
     forall k, In k (aliases m) ->
       fast_int_log 0 base k st = inl TypeError /\ fast_int_pow 0 base k st = inl TypeError) /\
  (forall r st', fast_log m v base st = inr (r, st') -> st' = st) /\
  (forall r st', fast_pow m v base st = inr (r, st') -> st' = st) /\
  (forall k r st', In k (aliases m) -> fast_int_log v base k st = inr (r, st') -> st' = st) /\
  (forall k r st', In k (aliases m) -> fast_int_pow v base k st = inr (r, st') -> st' = st).
Proof.
  intros Hr. pose proof (reachable_inv st Hr) as Hst.
  assert (Hlog : forall r st', fast_log m v base st = inr (r, st') -> st' = st).
  { intros r st' H. rewrite fast_log_lookup in H. exact (bind_lookup_state _ _ _ _ _ _ H). }
  assert (Hpow : forall r st', fast_pow m v base st = inr (r, st') -> st' = st).
  { intros r st' H. rewrite fast_pow_lookup in H. exact (bind_lookup_state _ _ _ _ _ _ H). }
  split; [|split; [|split; [|split; [|split; [exact Hlog|split; [exact Hpow|split]]]]]].
  - intros ->. apply fast_lookup_error. reflexivity.
  - intros Hh Hnone. apply fast_lookup_error.
    unfold lut_lookup. destruct base as [z|q|[|]]; [| |reflexivity|congruence].
    all: destruct (key_of _) as [k|] eqn:Ek; [rewrite (Hnone k eq_refl)|]; reflexivity.
  - intros k t Hk Hl Hlen. apply fast_lookup_error.
    rewrite (lut_lookup_key base k _ st Hk), Hl.
    pose proof (bit_length_nonneg v) as Hz.
    rewrite (proj2 (lookup_ge_None t (Z.to_nat (bit_length v)))) by lia. reflexivity.
  - intros k t Hk Hl. destruct (Hst k t Hl) as [_ [e (H0 & _)]]. apply fast_lookup_error.
    rewrite (lut_lookup_key base k _ st Hk), Hl.
    change (Z.to_nat (bit_length 0)) with 0%nat. rewrite H0. reflexivity.
  - intros k r st' Hk. destruct (fast_int_alias m k v base st Hk) as [-> _]. apply Hlog.
  - intros k r st' Hk. destruct (fast_int_alias m k v base st Hk) as [_ ->]. apply Hpow.
Qed.

Lemma fast_errors_witness :
  reachable (run_call (CExtendBitlen 2 (BInt 2)) ∅) /\
  (BInt 2 = BObj false ->
     fast_log Gt 100 (BInt 2) (run_call (CExtendBitlen 2 (BInt 2)) ∅) = inl TypeError /\ fast_pow Gt 100 (BInt 2) (run_call (CExtendBitlen 2 (BInt 2)) ∅) = inl TypeError /\
     forall k, In k (aliases Gt) ->
       fast_int_log 100 (BInt 2) k (run_call (CExtendBitlen 2 (BInt 2)) ∅) = inl TypeError /\
       fast_int_pow 100 (BInt 2) k (run_call (CExtendBitlen 2 (BInt 2)) ∅) = inl TypeError) /\
  (BInt 2 <> BObj false -> (forall k, key_of (BInt 2) = Some k -> (run_call (CExtendBitlen 2 (BInt 2)) ∅) !! k = None) ->
     fast_log Gt 100 (BInt 2) (run_call (CExtendBitlen 2 (BInt 2)) ∅) = inl KeyError /\ fast_pow Gt 100 (BInt 2) (run_call (CExtendBitlen 2 (BInt 2)) ∅) = inl KeyError /\
     forall k, In k (aliases Gt) ->
       fast_int_log 100 (BInt 2) k (run_call (CExtendBitlen 2 (BInt 2)) ∅) = inl KeyError /\
       fast_int_pow 100 (BInt 2) k (run_call (CExtendBitlen 2 (BInt 2)) ∅) = inl KeyError) /\
  (forall k t, key_of (BInt 2) = Some k -> (run_call (CExtendBitlen 2 (BInt 2)) ∅) !! k = Some t ->
     Z.of_nat (length t) <= bit_length 100 ->
     fast_log Gt 100 (BInt 2) (run_call (CExtendBitlen 2 (BInt 2)) ∅) = inl IndexError /\ fast_pow Gt 100 (BInt 2) (run_call (CExtendBitlen 2 (BInt 2)) ∅) = inl IndexError /\
     forall k, In k (aliases Gt) ->
       fast_int_log 100 (BInt 2) k (run_call (CExtendBitlen 2 (BInt 2)) ∅) = inl IndexError /\
       fast_int_pow 100 (BInt 2) k (run_call (CExtendBitlen 2 (BInt 2)) ∅) = inl IndexError) /\
  (forall k t, key_of (BInt 2) = Some k -> (run_call (CExtendBitlen 2 (BInt 2)) ∅) !! k = Some t ->
     fast_log Gt 0 (BInt 2) (run_call (CExtendBitlen 2 (BInt 2)) ∅) = inl TypeError /\ fast_pow Gt 0 (BInt 2) (run_call (CExtendBitlen 2 (BInt 2)) ∅) = inl TypeError /\
     forall k, In k (aliases Gt) ->
       fast_int_log 0 (BInt 2) k (run_call (CExtendBitlen 2 (BInt 2)) ∅) = inl TypeError /\
       fast_int_pow 0 (BInt 2) k (run_call (CExtendBitlen 2 (BInt 2)) ∅) = inl TypeError) /\
  (forall r st', fast_log Gt 100 (BInt 2) (run_call (CExtendBitlen 2 (BInt 2)) ∅) = inr (r, st') -> st' = (run_call (CExtendBitlen 2 (BInt 2)) ∅)) /\
  (forall r st', fast_pow Gt 100 (BInt 2) (run_call (CExtendBitlen 2 (BInt 2)) ∅) = inr (r, st') -> st' = (run_call (CExtendBitlen 2 (BInt 2)) ∅)) /\
  (forall k r st', In k (aliases Gt) -> fast_int_log 100 (BInt 2) k (run_call (CExtendBitlen 2 (BInt 2)) ∅) = inr (r, st') -> st' = (run_call (CExtendBitlen 2 (BInt 2)) ∅)) /\
  (forall k r st', In k (aliases Gt) -> fast_int_pow 100 (BInt 2) k (run_call (CExtendBitlen 2 (BInt 2)) ∅) = inr (r, st') -> st' = (run_call (CExtendBitlen 2 (BInt 2)) ∅)).
Proof.
  split; [apply reach_call; exact reach_init|].
  apply (fast_errors (run_call (CExtendBitlen 2 (BInt 2)) ∅) (BInt 2) 100 Gt).
  apply reach_call; exact reach_init.
Defined.

(** ** Keys of [_ROUNDING] *)

Lemma rounding_table_keys : Forall (fun kv => kv.1 ∈ rounding_keys) _ROUNDING.
Proof.
  apply Forall_forall. intros kv Hkv. vm_compute in Hkv.
  repeat (apply elem_of_cons in Hkv as [->|Hkv]);
    [..|apply not_elem_of_nil in Hkv; contradiction].
  all: vm_compute; repeat constructor.
Qed.

Lemma rounding_get_hashable k : k <> RUnhashable ->
  rounding_get k =
    match snd <$> list_find (fun kv => kv.1 = k) (reverse _ROUNDING) with
    | Some (_, v) => inr v
    | None => inl KeyError
    end.
Proof. destruct k; [reflexivity..|congruence]. Qed.

Lemma rounding_key_error {A} st (x : exn) k (g : rounding -> M A) :
  rounding_get k = inl x -> bind (rounding_lookup k) g st = inl x.
Proof. intros Hg. unfold rounding_lookup. rewrite Hg. reflexivity. Qed.

(** X8: [_ROUNDING] accepts exactly the tag strings, the four [operator]
    comparison functions and the six symbols.  Any other hashable key (a
    string, an [int], [None], another function, ...) makes every dispatcher
    raise [KeyError], and an unhashable key (a [list], ...) makes it raise
    [TypeError]: [int_log], [int_pow], [slow_int_log] and [slow_int_pow]
    after their value check, [fast_int_log] and [fast_int_pow] for every
    value, before reading the table. *)
Theorem rounding_unknown_key (k : RoundKey) :
  (In k rounding_keys -> exists r, rounding_get k = inr r) /\
  (~ In k rounding_keys -> k <> RUnhashable ->
     rounding_get k = inl KeyError /\
     (forall v base st, 1 <= v ->
        int_log v base k st = inl KeyError /\ int_pow v base k st = inl KeyError) /\
     (forall v base st,
        fast_int_log v base k st = inl KeyError /\ fast_int_pow v base k st = inl KeyError) /\
     (forall v b, 1 <= v ->
        slow_int_log v b k = inl KeyError /\ slow_int_pow v b k = inl KeyError)) /\
  (k = RUnhashable ->
     rounding_get k = inl TypeError /\
     (forall v base st, 1 <= v ->
        int_log v base k st = inl TypeError /\ int_pow v base k st = inl TypeError) /\
     (forall v base st,
        fast_int_log v base k st = inl TypeError /\ fast_int_pow v base k st = inl TypeError) /\
     (forall v b, 1 <= v ->
        slow_int_log v b k = inl TypeError /\ slow_int_pow v b k = inl TypeError)).
Proof.
  assert (Hall : forall x, rounding_get k = inl x ->
     (forall v base st, 1 <= v ->
        int_log v base k st = inl x /\ int_pow v base k st = inl x) /\
     (forall v base st,
        fast_int_log v base k st = inl x /\ fast_int_pow v base k st = inl x) /\
     (forall v b, 1 <= v ->
        slow_int_log v b k = inl x /\ slow_int_pow v b k = inl x)).
  { intros x Hg. split; [|split].
    - intros v base st Hv. unfold int_log, int_pow. rewrite !bind_check by exact Hv.
      split; apply (rounding_key_error st x k _ Hg).
    - intros v base st. unfold fast_int_log, fast_int_pow.
      split; apply (rounding_key_error st x k _ Hg).
    - intros v b Hv. unfold slow_int_log, slow_int_pow.
      destruct (Z.leb_spec v 0); [lia|]. rewrite Hg. split; reflexivity. }
  split; [|split].
  - intros Hk. unfold rounding_keys in Hk.
    repeat apply in_app_or in Hk as [Hk|Hk];
      eexists; eapply rounding_get_alias; exact Hk.
  - intros Hk Hh.
    assert (Hg : rounding_get k = inl KeyError).
    { rewrite (rounding_get_hashable k Hh).
      destruct (list_find (fun kv => kv.1 = k) (reverse _ROUNDING)) as [[i kv]|] eqn:E;
        [|reflexivity].
      apply list_find_Some in E as (Hi & Hkv & _). exfalso. apply Hk. subst k.
      apply list_elem_of_lookup_2, elem_of_reverse in Hi.
      apply list_elem_of_In. exact (proj1 (Forall_forall _ _) rounding_table_keys kv Hi). }
    split; [exact Hg|exact (Hall _ Hg)].
  - intros ->. split; [reflexivity|]. apply Hall. reflexivity.
Qed.

(** ** How the four logarithms relate *)

Lemma least_exps_cases b v kle klt : 2 <= b -> 1 <= v ->
  least_exp op_le b v kle -> least_exp op_lt b v klt ->
  (klt = kle - 1 /\ v = b ^ (kle - 1)) \/ (klt = kle /\ b ^ (kle - 1) < v).
Proof.
  intros Hb Hv Hle Hlt.
  destruct (least_le_facts b v kle Hv Hle) as (H1 & Hlo & Hhi).
  destruct (least_lt_facts b v klt Hlt) as (H0 & Hprev & Hup).
  destruct (Z.eq_dec (b ^ (kle - 1)) v) as [Heq|Hne].
  - left. split; [|symmetry; exact Heq].
    assert (kle - 1 <= klt) by (apply (pow_le_inv b); lia).
    destruct (Z.eq_dec klt 0) as [->|Hk0]; [lia|].
    destruct Hprev as [|Hprev]; [lia|].
    assert (klt - 1 < kle - 1) by (apply (pow_lt_inv b); lia). lia.
  - right. split; [|lia].
    assert (kle - 1 < klt) by (apply (pow_lt_inv b); lia).
    destruct (Z.eq_dec klt 0) as [->|Hk0]; [lia|].
    destruct Hprev as [|Hprev]; [lia|].
    assert (klt - 1 < kle) by (apply (pow_lt_inv b); lia). lia.
Qed.

(** X9: for [base >= 2] and [value >= 1], read off the four return
    expressions: [gt_log = le_log + 1] and [ge_log = lt_log + 1];
    [ge_log = le_log] exactly when [value] is a power of [base], and
    [ge_log = gt_log] exactly when it is not. *)
Theorem log_variant_relations (st : registry) (b v : Z) :
  reachable st -> 2 <= b -> 1 <= v ->
  exists g ge l le st',
    gt_log v (BInt b) st = inr (g, st') /\ ge_log v (BInt b) st = inr (ge, st') /\
    lt_log v (BInt b) st = inr (l, st') /\ le_log v (BInt b) st = inr (le, st') /\
    g = le + 1 /\ ge = l + 1 /\
    (ge = le <-> exists k, 0 <= k /\ v = b ^ k) /\
    (ge = g <-> ~ exists k, 0 <= k /\ v = b ^ k).
Proof.
  intros Hr Hb Hv.
  destruct (auto_results st b v (reachable_inv _ Hr) Hb Hv)
    as (kle & klt & st' & Hle & Hlt & _ & A1 & A2 & A3 & A4 & _).
  exists kle, klt, (klt - 1), (kle - 1), st'.
  do 4 (split; [assumption|]). split; [lia|]. split; [lia|].
  pose proof (least_le_facts b v kle Hv Hle) as (H1 & Hlo & Hhi).
  assert (Hpow : (exists k, 0 <= k /\ v = b ^ k) <-> v = b ^ (kle - 1)).
  { split.
    - intros (k & Hk & ->).
      assert (kle - 1 <= k) by (apply (pow_le_inv b); lia).
      assert (k < kle) by (apply (pow_lt_inv b); lia).
      replace (kle - 1) with k by lia. reflexivity.
    - intros ->. exists (kle - 1). split; [lia|reflexivity]. }
  destruct (least_exps_cases b v kle klt Hb Hv Hle Hlt) as [[-> Hv1]|[-> Hlt1]];
    rewrite Hpow; split; split; intros; lia.
Qed.

Lemma log_variant_relations_witness :
  reachable ∅ /\ 2 <= 3 /\ 1 <= 81 /\
  exists g ge l le st',
    gt_log 81 (BInt 3) ∅ = inr (g, st') /\ ge_log 81 (BInt 3) ∅ = inr (ge, st') /\
    lt_log 81 (BInt 3) ∅ = inr (l, st') /\ le_log 81 (BInt 3) ∅ = inr (le, st') /\
    g = le + 1 /\ ge = l + 1 /\
    (ge = le <-> exists k, 0 <= k /\ 81 = 3 ^ k) /\
    (ge = g <-> ~ exists k, 0 <= k /\ 81 = 3 ^ k).
Proof.
  split; [exact reach_init|]. split; [lia|]. split; [lia|].
  apply (log_variant_relations ∅ 3 81); [exact reach_init|lia|lia].
Defined.

(** ** The [slow_*] loops do not check the base *)

Lemma slow_loop_bounded n cmp b v : -1 <= b <= 1 ->
  forall p e, -1 <= p <= 1 -> -1 <= (slow_loop n cmp b v p e).1 <= 1.
Proof.
  intros Hb. induction n as [|n IH]; intros p e Hp; simpl; [exact Hp|].
  destruct (apply_cmp cmp p v); [apply IH; nia|exact Hp].
Qed.

(** X10: the [slow_*] functions never validate the base: for [base] in
    [-1, 0, 1] the power stays in [-1 .. 1], so after any number of
    iterations the loop condition [power <= value] (of [slow_gt_*],
    [slow_le_*], and [slow_int_*] with [gt]/[le]) still holds for
    [value >= 1], and [power < value] (of [slow_ge_*], [slow_lt_*], and
    [slow_int_*] with [ge]/[lt]) still holds for [value >= 2]: these
    calls never return. *)
Theorem slow_loop_diverges (b v : Z) (n : nat) :
  -1 <= b <= 1 ->
  (1 <= v -> apply_cmp op_le (slow_loop n op_le b v 1 0).1 v = true) /\
  (2 <= v -> apply_cmp op_lt (slow_loop n op_lt b v 1 0).1 v = true).
Proof.
  intros Hb. split; intros Hv.
  - pose proof (slow_loop_bounded n op_le b v Hb 1 0 ltac:(lia)). simpl. apply Z.leb_le. lia.
  - pose proof (slow_loop_bounded n op_lt b v Hb 1 0 ltac:(lia)). simpl. apply Z.ltb_lt. lia.
Qed.

Lemma slow_loop_diverges_witness :
  -1 <= 1 <= 1 /\
  (1 <= 5 -> apply_cmp op_le (slow_loop 1000 op_le 1 5 1 0).1 5 = true) /\
  (2 <= 5 -> apply_cmp op_lt (slow_loop 1000 op_lt 1 5 1 0).1 5 = true).
Proof.
  split; [lia|]. apply (slow_loop_diverges 1 5 1000). lia.
Defined.

(** ** The test driver *)

Lemma covers_grows st st' b v : covers st b v -> grows st st' -> covers st' b v.
Proof.
  intros (t & Hl & Hlen) Hg. destruct (Hg b t Hl) as (ext & Hl').
  exists (t ++ ext). split; [exact Hl'|]. rewrite length_app. lia.
Qed.

Lemma gt_log_call_covers st b v : reachable st -> 2 <= b -> 1 <= v ->
  covers (run_call (CGtLog v (BInt b)) st) b v.
Proof.
  intros Hr Hb Hv.
  destruct (auto_query_fetch st b v (reachable_inv _ Hr) Hb Hv) as (s & _ & Hcov & Hq).
  destruct (Hq Gt) as [[r Hg] _]. simpl in Hg. simpl. unfold after. rewrite Hg. exact Hcov.
Qed.

Lemma test_calls_cover st b vs : reachable st -> 2 <= b -> Forall (fun v => 1 <= v) vs ->
  forall v, In v vs -> covers (run_calls (flat_map (test_value_calls (BInt b)) vs) st) b v.
Proof.
  intros Hr Hb. revert st Hr. induction vs as [|w vs IH]; intros st Hr Hpos v Hin;
    [contradiction|].
  inversion Hpos as [|? ? Hw Hrest]; subst.
  replace (flat_map (test_value_calls (BInt b)) (w :: vs))
    with (test_value_calls (BInt b) w ++ flat_map (test_value_calls (BInt b)) vs) by reflexivity.
  unfold run_calls. rewrite fold_left_app. fold (run_calls (flat_map (test_value_calls (BInt b)) vs)).
  set (st1 := fold_left (fun s c => run_call c s) (test_value_calls (BInt b) w) st).
  assert (Hr1 : reachable st1).
  { unfold st1, test_value_calls. cbn [fold_left]. repeat apply reach_call. exact Hr. }
  destruct Hin as [<-|Hin]; [|exact (IH st1 Hr1 Hrest v Hin)].
  apply (covers_grows st1); [|apply run_calls_grows, Hr1].
  unfold st1, test_value_calls. cbn [fold_left].
  apply (covers_grows (run_call (CGtLog w (BInt b)) st)); [apply gt_log_call_covers; assumption|].
  change (run_call (CLePow w (BInt b)) (run_call (CLeLog w (BInt b)) (run_call (CLtPow w (BInt b))
    (run_call (CLtLog w (BInt b)) (run_call (CGePow w (BInt b)) (run_call (CGeLog w (BInt b))
    (run_call (CGtPow w (BInt b)) (run_call (CGtLog w (BInt b)) st))))))))
    with (run_calls [CGtPow w (BInt b); CGeLog w (BInt b); CGePow w (BInt b); CLtLog w (BInt b);
                     CLtPow w (BInt b); CLeLog w (BInt b); CLePow w (BInt b)]
                    (run_call (CGtLog w (BInt b)) st)).
  apply run_calls_grows, reach_call, Hr.
Qed.

(** X11: after the pass of [_test_funcs] with the auto-extending functions
    over [range(1, max_value + 1)] for a base [>= 2], the table covers every
    tested value: each [fast_*] function then returns, for each of those
    values, what the auto-extending function returns, without raising
    (this is what lets the [fast_] pass of [_test_all_funcs], which runs
    after the auto pass and does not extend the range itself, succeed). *)
Theorem test_driver_fast_pass (st : registry) (b max_value : Z) :
  reachable st -> 2 <= b ->
  forall v, 1 <= v <= max_value ->
    covers (run_calls (test_funcs_calls (BInt b) max_value) st) b v /\
    forall m,
      (exists r, fast_log m v (BInt b) (run_calls (test_funcs_calls (BInt b) max_value) st)
                   = inr (r, run_calls (test_funcs_calls (BInt b) max_value) st) /\
                 exists s, auto_log m v (BInt b) (run_calls (test_funcs_calls (BInt b) max_value) st)
                   = inr (r, s)) /\
      (exists r, fast_pow m v (BInt b) (run_calls (test_funcs_calls (BInt b) max_value) st)
                   = inr (r, run_calls (test_funcs_calls (BInt b) max_value) st) /\
                 exists s, auto_pow m v (BInt b) (run_calls (test_funcs_calls (BInt b) max_value) st)
                   = inr (r, s)).
Proof.
  intros Hr Hb v Hv.
  set (S := run_calls (test_funcs_calls (BInt b) max_value) st).
  assert (HS : reachable S).
  { unfold S. clear - Hr. generalize (test_funcs_calls (BInt b) max_value) as cs.
    intros cs. revert st Hr. induction cs as [|c cs IH]; intros st Hr; [exact Hr|].
    apply IH, reach_call, Hr. }
  assert (Hcov : covers S b v).
  { unfold S, test_funcs_calls. apply test_calls_cover; [exact Hr|exact Hb| |].
    - apply Forall_forall. intros w Hw. apply list_elem_of_In, in_map_iff in Hw as (k & <- & Hk).
      apply in_seq in Hk. lia.
    - apply in_map_iff. exists (Z.to_nat v). split; [lia|]. apply in_seq. lia. }
  split; [exact Hcov|]. intros m.
  pose proof (reachable_inv S HS) as HSi.
  destruct (auto_results S b v HSi Hb ltac:(lia))
    as (kle & klt & s & Hle & Hlt & _ & A1 & A2 & A3 & A4 & A5 & A6 & A7 & A8).
  destruct (fast_results S b v HSi Hb ltac:(lia) Hcov)
    as (kle' & klt' & Hle' & Hlt' & F1 & F2 & F3 & F4 & F5 & F6 & F7 & F8).
  rewrite <- (least_exp_unique op_le b v kle kle' ltac:(left; reflexivity) Hb Hle Hle') in *.
  rewrite <- (least_exp_unique op_lt b v klt klt' ltac:(right; reflexivity) Hb Hlt Hlt') in *.
  destruct m; simpl; (split; eexists; (split; [eassumption|eexists; eassumption])).
Qed.

Lemma test_driver_fast_pass_witness :
  reachable ∅ /\ 2 <= 3 /\ 1 <= 7 <= 20 /\
  covers (run_calls (test_funcs_calls (BInt 3) 20) ∅) 3 7 /\
  forall m,
    (exists r, fast_log m 7 (BInt 3) (run_calls (test_funcs_calls (BInt 3) 20) ∅)
                 = inr (r, run_calls (test_funcs_calls (BInt 3) 20) ∅) /\
               exists s, auto_log m 7 (BInt 3) (run_calls (test_funcs_calls (BInt 3) 20) ∅)
                 = inr (r, s)) /\
    (exists r, fast_pow m 7 (BInt 3) (run_calls (test_funcs_calls (BInt 3) 20) ∅)
                 = inr (r, run_calls (test_funcs_calls (BInt 3) 20) ∅) /\
               exists s, auto_pow m 7 (BInt 3) (run_calls (test_funcs_calls (BInt 3) 20) ∅)
                 = inr (r, s)).
Proof.
  split; [exact reach_init|]. split; [lia|]. split; [lia|].
  apply (test_driver_fast_pass ∅ 3 20); [exact reach_init|lia|lia].
Defined.

(** ** How the four powers relate *)

(** X12: for [base >= 2] and [value >= 1]: [gt_pow = le_pow * base], and
    [ge_pow = lt_pow * base] when [value >= 2] (at [value = 1],
    [lt_pow] is the sentinel 0 while [ge_pow] is 1); [le_pow] and [ge_pow]
    equal [value] exactly when [value] is a power of [base]. *)
Theorem pow_variant_relations (st : registry) (b v : Z) :
  reachable st -> 2 <= b -> 1 <= v ->
  exists g ge l le st',
    gt_pow v (BInt b) st = inr (NInt g, st') /\ ge_pow v (BInt b) st = inr (NInt ge, st') /\
    lt_pow v (BInt b) st = inr (NInt l, st') /\ le_pow v (BInt b) st = inr (NInt le, st') /\
    g = le * b /\ (2 <= v -> ge = l * b) /\ (v = 1 -> l = 0 /\ ge = 1) /\
    (le = v <-> exists k, 0 <= k /\ v = b ^ k) /\
    (ge = v <-> exists k, 0 <= k /\ v = b ^ k).
Proof.
  intros Hr Hb Hv.
  destruct (auto_results st b v (reachable_inv _ Hr) Hb Hv)
    as (kle & klt & st' & Hle & Hlt & _ & _ & _ & _ & _ & A5 & A6 & A7 & A8).
  pose proof (least_le_facts b v kle Hv Hle) as (H1 & Hlo & Hhi).
  pose proof (least_lt_facts b v klt Hlt) as (H0 & Hprev & Hup).
  rewrite (pow_div b kle Hb H1) in A8.
  exists (b ^ kle), (b ^ klt), (b ^ klt / b), (b ^ (kle - 1)), st'.
  do 4 (split; [assumption|]).
  assert (Hpow : (exists k, 0 <= k /\ v = b ^ k) <-> v = b ^ (kle - 1)).
  { split.
    - intros (k & Hk & ->).
      assert (kle - 1 <= k) by (apply (pow_le_inv b); lia).
      assert (k < kle) by (apply (pow_lt_inv b); lia).
      replace (kle - 1) with k by lia. reflexivity.
    - intros ->. exists (kle - 1). split; [lia|reflexivity]. }
  split; [rewrite <- (pow_succ b (kle - 1)) by lia; f_equal; lia|].
  split; [|split].
  - intros Hv2. destruct (Z.eq_dec klt 0) as [->|Hk0]; [rewrite Z.pow_0_r in Hup; lia|].
    rewrite (pow_div b klt Hb ltac:(lia)), <- (pow_succ b (klt - 1)) by lia.
    f_equal. lia.
  - intros ->. assert (klt = 0).
    { destruct (Z.eq_dec klt 0) as [|Hk0]; [assumption|].
      destruct Hprev as [|Hprev]; [lia|].
      pose proof (pow_pos b (klt - 1) Hb ltac:(lia)). lia. }
    subst klt. rewrite Z.pow_0_r. split; [apply Z.div_small; lia|reflexivity].
  - rewrite Hpow.
    destruct (least_exps_cases b v kle klt Hb Hv Hle Hlt) as [[-> Hv1]|[-> Hlt1]];
      split; split; intros; lia.
Qed.

Lemma pow_variant_relations_witness :
  reachable ∅ /\ 2 <= 2 /\ 1 <= 64 /\
  exists g ge l le st',
    gt_pow 64 (BInt 2) ∅ = inr (NInt g, st') /\ ge_pow 64 (BInt 2) ∅ = inr (NInt ge, st') /\
    lt_pow 64 (BInt 2) ∅ = inr (NInt l, st') /\ le_pow 64 (BInt 2) ∅ = inr (NInt le, st') /\
    g = le * 2 /\ (2 <= 64 -> ge = l * 2) /\ (64 = 1 -> l = 0 /\ ge = 1) /\
    (le = 64 <-> exists k, 0 <= k /\ 64 = 2 ^ k) /\
    (ge = 64 <-> exists k, 0 <= k /\ 64 = 2 ^ k).
Proof.
  split; [exact reach_init|]. split; [lia|]. split; [lia|].
  apply (pow_variant_relations ∅ 2 64); [exact reach_init|lia|lia].
Defined.
